(** * Identity reconciliation service: the contact store and the
      reconciliation engine

    A shallow embedding of [DatabaseManager] (the SQLite-backed contact
    table) and [ContactService] (the reconciliation logic), followed by the
    properties of [identifyContact].

    Conventions of the embedding.
    - A JavaScript value that is either [null] or a string is an
      [option string]; [None] is [null].  The empty string is a value of its
      own, [Some ""], and is falsy like [null].
    - The table [Contact] is the list of its rows in rowid order.  Both
      queries have a [WHERE] clause of the form [(a OR b) AND deletedAt IS
      NULL] in which each of [a] and [b] is an equality on an indexed
      column (the schema declares an index on [email], on [phoneNumber] and
      on [linkedId]; [id] is the key).  SQLite answers such a query through
      the two indexes: first the rows selected by [a], then the rows
      selected by [b] alone, each part in rowid order.  [ORDER BY] is a
      stable sort of that sequence, so rows that agree on the sort key come
      out in the order of the scan.
    - [CURRENT_TIMESTAMP] is read from the host's clock: the [k]-th write
      statement executed against the database is stamped [clock k].
      Timestamps are integers (seconds of the UTC text the store keeps), and
      [ORDER BY createdAt] compares them as they are.  [new Date(t)] does
      not: the text has no zone designator, so [Date] reads it as local time
      of the host; its value is [date_of clock t].
    - The statements sent to the store are taken to succeed; the errors of
      the embedding are the ones the service's own code raises.
    - An [async] method of the service is a function from the database to
      a result and the database it leaves behind; a thrown error is the left
      injection of the result. *)

From Stdlib Require Import ZArith List String Ascii Bool Lia.
From Stdlib Require Import Sorting.Sorted Sorting.Permutation.
Import ListNotations.
Local Open Scope Z_scope.
Local Open Scope string_scope.

(* ------------------------------------------------------------------ *)
(** ** The persisted shape *)

Inductive LinkPrecedence : Set := primary | secondary.

(** The text stored in the [linkPrecedence] column. *)
Definition precedence_text (p : LinkPrecedence) : string :=
  match p with
  | primary => "primary"
  | secondary => "secondary"
  end.

Definition precedence_eqb (a b : LinkPrecedence) : bool :=
  match a, b with
  | primary, primary | secondary, secondary => true
  | _, _ => false
  end.

Record Contact : Set := mkContact {
  id : Z;
  phoneNumber : option string;
  email : option string;
  linkedId : option Z;
  linkPrecedence : LinkPrecedence;
  createdAt : Z;
  updatedAt : Z;
  deletedAt : option Z
}.

(** The database: the rows of [Contact], the [sqlite_sequence] counter kept
    for the [AUTOINCREMENT] key, and the number of write statements executed
    so far (the index into the clock). *)
Record Database : Set := mkDatabase {
  rows : list Contact;
  seq : Z;
  stmts : nat
}.

(** The host's time.  [current_timestamp k] is what [CURRENT_TIMESTAMP]
    gives the [k]-th write statement; a clock applied to [k] is that value.
    [date_of t] is the value of [new Date(t)] for a stored timestamp [t]:
    the UTC text read as local time.  On a host in UTC it is [t]; in a zone
    with daylight saving, a text that falls in the hour the local clocks
    skip is read with the offset in force before the change, so that a later
    text can be read as an earlier date. *)
Record Clock : Set := mkClock {
  current_timestamp :> nat -> Z;
  date_of : Z -> Z
}.

Definition empty_db : Database := mkDatabase [] 0 0.

(* ------------------------------------------------------------------ *)
(** ** JavaScript values *)

(** Truthiness of a string-or-null value: [null] and [""] are falsy. *)
Definition truthy (v : option string) : bool :=
  match v with
  | Some s => negb (s =? "")
  | None => false
  end.

(** [a === b] on string-or-null values. *)
Definition strict_eq (a b : option string) : bool :=
  match a, b with
  | Some x, Some y => x =? y
  | None, None => true
  | _, _ => false
  end.

(** [a === b] on number-or-null values. *)
Definition strict_eqZ (a b : option Z) : bool :=
  match a, b with
  | Some x, Some y => (x =? y)%Z
  | None, None => true
  | _, _ => false
  end.

(** [arr.filter(Boolean)] on an array of string-or-null values. *)
Fixpoint filter_Boolean (l : list (option string)) : list string :=
  match l with
  | [] => []
  | Some s :: t => if s =? "" then filter_Boolean t else s :: filter_Boolean t
  | None :: t => filter_Boolean t
  end.

(** [arr.includes(s)]. *)
Fixpoint includes (l : list string) (s : string) : bool :=
  match l with
  | [] => false
  | x :: t => (x =? s) || includes t s
  end.

(** [[...new Set(arr)]]: the first occurrence of each value, in order. *)
Fixpoint set_of_acc (seen : list string) (l : list string) : list string :=
  match l with
  | [] => []
  | x :: t => if includes seen x then set_of_acc seen t
              else x :: set_of_acc (x :: seen) t
  end.

Definition set_of (l : list string) : list string := set_of_acc [] l.

Definition is_digit (c : ascii) : bool :=
  let n := nat_of_ascii c in (48 <=? n)%nat && (n <=? 57)%nat.

Fixpoint all_digits (s : string) : bool :=
  match s with
  | EmptyString => true
  | String c t => is_digit c && all_digits t
  end.

(** [/^\d{10}$/.test(s)]. *)
Definition ten_digits (s : string) : bool :=
  (String.length s =? 10)%nat && all_digits s.

(* ------------------------------------------------------------------ *)
(** ** DatabaseManager *)

Module DatabaseManager.

(** Stable insertion sort: [ORDER BY] with key order [le]. *)
Section OrderBy.
Variable le : Contact -> Contact -> bool.

Fixpoint insert_row (x : Contact) (l : list Contact) : list Contact :=
  match l with
  | [] => [x]
  | y :: t => if le x y then x :: y :: t else y :: insert_row x t
  end.

Fixpoint order_by (l : list Contact) : list Contact :=
  match l with
  | [] => []
  | x :: t => insert_row x (order_by t)
  end.
End OrderBy.

(** [deletedAt IS NULL]. *)
Definition live (c : Contact) : bool :=
  match deletedAt c with None => true | Some _ => false end.

(** [column = ?] for a text column and a string parameter: never true on a
    [NULL] column. *)
Definition sql_eq_text (col : option string) (param : string) : bool :=
  match col with
  | Some s => s =? param
  | None => false
  end.

(** [column = ?] for an integer column and a number-or-null parameter:
    never true when either side is [NULL]. *)
Definition sql_eq_int (col : option Z) (param : option Z) : bool :=
  match col, param with
  | Some a, Some b => (a =? b)%Z
  | _, _ => false
  end.

(** The text bound to a [?] placeholder. *)
Definition param_text (v : option string) : string :=
  match v with Some s => s | None => "" end.

(** [ORDER BY createdAt ASC]. *)
Definition by_createdAt (a b : Contact) : bool :=
  (createdAt a <=? createdAt b)%Z.

(** [ORDER BY linkPrecedence DESC, createdAt ASC]: the precedence column is
    compared as text. *)
Definition by_precedence_desc_createdAt (a b : Contact) : bool :=
  match String.compare (precedence_text (linkPrecedence a))
                       (precedence_text (linkPrecedence b)) with
  | Gt => true
  | Lt => false
  | Eq => (createdAt a <=? createdAt b)%Z
  end.

(** The rows selected by [a OR b] through the indexes of the two terms:
    those selected by [a], then those selected by [b] alone, each part in
    rowid order. *)
Definition index_or (a b : Contact -> bool) (l : list Contact) : list Contact :=
  (filter a l ++ filter (fun c => negb (a c) && b c) l)%list.

(** The two conditions [findContactsByEmailOrPhone] may push; a condition
    that is not pushed selects nothing. *)
Definition email_is (email' : option string) (c : Contact) : bool :=
  truthy email' && sql_eq_text (email c) (param_text email').

Definition phone_is (phoneNumber' : option string) (c : Contact) : bool :=
  truthy phoneNumber' && sql_eq_text (phoneNumber c) (param_text phoneNumber').

(** The [WHERE] clause built by [findContactsByEmailOrPhone]. *)
Definition matches (email' phoneNumber' : option string) (c : Contact) : bool :=
  (email_is email' c || phone_is phoneNumber' c) && live c.

Definition findContactsByEmailOrPhone (db : Database)
    (email' phoneNumber' : option string) : list Contact :=
  if negb (truthy email') && negb (truthy phoneNumber') then []
  else order_by by_createdAt
         (filter live (index_or (email_is email') (phone_is phoneNumber') (rows db))).

(** [SELECT * FROM Contact WHERE id = ?] through [get]: the row or
    [undefined]. *)
Definition get_by_id (db : Database) (i : Z) : option Contact :=
  find (fun c => (id c =? i)%Z) (rows db).

Definition max_rowid (l : list Contact) : Z :=
  fold_right (fun c m => Z.max (id c) m) 0 l.

(** The key an [AUTOINCREMENT] column gives the next row: one more than the
    largest key the table has ever held. *)
Definition next_id (db : Database) : Z :=
  Z.max (seq db) (max_rowid (rows db)) + 1.

Definition createContact (clock : Clock) (db : Database)
    (email' phoneNumber' : option string) (linkedId' : option Z)
    (linkPrecedence' : LinkPrecedence) : option Contact * Database :=
  let now := clock (stmts db) in
  let lastID := next_id db in
  let row := mkContact lastID phoneNumber' email' linkedId' linkPrecedence'
                       now now None in
  let db' := mkDatabase (rows db ++ [row]) lastID (S (stmts db)) in
  (get_by_id db' lastID, db').

(** The [SET] clause of [updateContactLink] applied to one row. *)
Definition set_link (linkedId' : option Z) (linkPrecedence' : LinkPrecedence)
    (now : Z) (c : Contact) : Contact :=
  mkContact (id c) (phoneNumber c) (email c) linkedId' linkPrecedence'
            (createdAt c) now (deletedAt c).

Definition updateContactLink (clock : Clock) (db : Database)
    (contactId : Z) (linkedId' : option Z) (linkPrecedence' : LinkPrecedence)
    : option Contact * Database :=
  let now := clock (stmts db) in
  let db' := mkDatabase
               (map (fun c => if (id c =? contactId)%Z
                              then set_link linkedId' linkPrecedence' now c else c)
                    (rows db))
               (seq db) (S (stmts db)) in
  (get_by_id db' contactId, db').

(** The two conditions of [getLinkedContacts]. *)
Definition id_is (primaryId : option Z) (c : Contact) : bool :=
  sql_eq_int (Some (id c)) primaryId.

Definition linkedId_is (primaryId : option Z) (c : Contact) : bool :=
  sql_eq_int (linkedId c) primaryId.

(** The [WHERE] clause of [getLinkedContacts]. *)
Definition in_group (primaryId : option Z) (c : Contact) : bool :=
  (id_is primaryId c || linkedId_is primaryId c) && live c.

Definition getLinkedContacts (db : Database) (primaryId : option Z)
    : list Contact :=
  order_by by_precedence_desc_createdAt
    (filter live (index_or (id_is primaryId) (linkedId_is primaryId) (rows db))).

(** The object returned by [getStats].  [lastUpdate] is the [MAX] of a
    column: [NULL] on an empty table. *)
Record Stats : Set := mkStats {
  totalContacts : Z;
  primaryContacts : Z;
  secondaryContacts : Z;
  lastUpdate : option Z
}.

(** [SELECT COUNT( * ) FROM Contact WHERE ...]. *)
Definition count_where (cond : Contact -> bool) (l : list Contact) : Z :=
  Z.of_nat (List.length (filter cond l)).

(** [SELECT MAX(updatedAt) FROM Contact]. *)
Fixpoint max_updatedAt (l : list Contact) : option Z :=
  match l with
  | [] => None
  | c :: t =>
      match max_updatedAt t with
      | None => Some (updatedAt c)
      | Some m => Some (Z.max (updatedAt c) m)
      end
  end.

Definition getStats (db : Database) : Stats :=
  mkStats
    (count_where live (rows db))
    (count_where (fun c => precedence_eqb (linkPrecedence c) primary && live c)
                 (rows db))
    (count_where (fun c => precedence_eqb (linkPrecedence c) secondary && live c)
                 (rows db))
    (max_updatedAt (rows db)).

End DatabaseManager.

(* ------------------------------------------------------------------ *)
(** ** ContactService *)

(** What the code of a service method throws.  The class [CustomError] is
    declared in [utils/CustomError.js]; a value of it is the three arguments
    the service passes to its constructor.  A [TypeError] is what the
    runtime throws on reading a property of [undefined].  A statement the
    store rejects is not among them: the statements are taken to succeed. *)
Inductive Error : Set :=
| CustomError (message : string) (statusCode : Z) (code : string)
| TypeError (message : string).

(** The object returned by [identifyContact].  [primaryContactId] is a
    number or [null]. *)
Record ConsolidatedView : Set := mkView {
  primaryContactId : option Z;
  emails : list string;
  phoneNumbers : list string;
  secondaryContactIds : list Z
}.

(** The object returned by [determineNewInfo]; only the truthiness of its
    two fields is ever inspected. *)
Record NewInfo : Set := mkNewInfo {
  needsEmail : bool;
  needsPhone : bool
}.

(** The plan object returned by [analyzeContacts], by its [action]. *)
Inductive Plan : Set :=
| return_existing (primaryContact : option Contact)
| merge_primaries (primaryContacts secondaryContacts : list Contact)
| create_secondary (primaryContact : Contact) (needsNewInfo : NewInfo)
| link_to_existing_primary (primaryId : option Z) (needsNewInfo : NewInfo)
| create_new_primary.

Definition Outcome : Set := (Error + ConsolidatedView) * Database.

Module ContactService.
Import DatabaseManager.

Definition is_primary (c : Contact) : bool :=
  precedence_eqb (linkPrecedence c) primary.

Definition is_secondary (c : Contact) : bool :=
  precedence_eqb (linkPrecedence c) secondary.

(** Reading [.id] of a value that may be [undefined]. *)
Definition read_id (c : option Contact) : Error + Z :=
  match c with
  | Some c => inr (id c)
  | None => inl (TypeError "Cannot read properties of undefined (reading 'id')")
  end.

Definition buildResponse (db : Database) (primaryContactId' : option Z)
    : ConsolidatedView :=
  let linkedContacts := getLinkedContacts db primaryContactId' in
  mkView primaryContactId'
         (set_of (filter_Boolean (map email linkedContacts)))
         (set_of (filter_Boolean (map phoneNumber linkedContacts)))
         (map id (filter is_secondary linkedContacts)).

Definition createNewPrimaryContact (clock : Clock) (db : Database)
    (email' phoneNumber' : option string) : Outcome :=
  let '(newContact, db1) := createContact clock db email' phoneNumber' None primary in
  match read_id newContact with
  | inl err => (inl err, db1)
  | inr newId =>
      (inr (mkView (Some newId)
                   (if truthy email' then [param_text email'] else [])
                   (if truthy phoneNumber' then [param_text phoneNumber'] else [])
                   []),
       db1)
  end.

Definition findPrimaryInChain (contact : Contact) (allContacts : list Contact)
    : option Contact :=
  if is_primary contact then Some contact
  else find (fun c => strict_eqZ (Some (id c)) (linkedId contact) && is_primary c)
            allContacts.

Definition determineNewInfo (existingContacts : list Contact)
    (email' phoneNumber' : option string) : NewInfo :=
  let existingEmails := filter_Boolean (map email existingContacts) in
  let existingPhones := filter_Boolean (map phoneNumber existingContacts) in
  mkNewInfo
    (truthy email' && negb (includes existingEmails (param_text email')))
    (truthy phoneNumber' && negb (includes existingPhones (param_text phoneNumber'))).

Definition analyzeContacts (existingContacts : list Contact)
    (email' phoneNumber' : option string) : Plan :=
  let primaryContacts := filter is_primary existingContacts in
  let secondaryContacts := filter is_secondary existingContacts in
  let exactEmailMatch := find (fun c => strict_eq (email c) email') existingContacts in
  let exactPhoneMatch :=
    find (fun c => strict_eq (phoneNumber c) phoneNumber') existingContacts in
  let exact :=
    match exactEmailMatch, exactPhoneMatch with
    | Some a, Some b => if (id a =? id b)%Z then Some a else None
    | _, _ => None
    end in
  match exact with
  | Some a => return_existing (findPrimaryInChain a existingContacts)
  | None =>
      match primaryContacts with
      | _ :: _ :: _ => merge_primaries primaryContacts secondaryContacts
      | [p] => create_secondary p
                 (determineNewInfo existingContacts email' phoneNumber')
      | [] =>
          match secondaryContacts with
          | s :: _ => link_to_existing_primary (linkedId s)
                        (determineNewInfo existingContacts email' phoneNumber')
          | [] => create_new_primary
          end
      end
  end.

(** The body shared by the three methods that attach new information to a
    group: create one secondary holding the missing field(s) when there is
    new information, then build the view of the group. *)
Definition attach (clock : Clock) (db : Database) (primaryId' : option Z)
    (needsNewInfo' : NewInfo) (email' phoneNumber' : option string) : Outcome :=
  let db1 :=
    if needsEmail needsNewInfo' || needsPhone needsNewInfo'
    then snd (createContact clock db
                (if needsEmail needsNewInfo' then email' else None)
                (if needsPhone needsNewInfo' then phoneNumber' else None)
                primaryId' secondary)
    else db in
  (inr (buildResponse db1 primaryId'), db1).

Definition createSecondaryContact (clock : Clock) (db : Database)
    (primaryContact' : Contact) (needsNewInfo' : NewInfo)
    (email' phoneNumber' : option string) : Outcome :=
  attach clock db (Some (id primaryContact')) needsNewInfo' email' phoneNumber'.

Definition linkToExistingPrimary (clock : Clock) (db : Database)
    (primaryId' : option Z) (needsNewInfo' : NewInfo)
    (email' phoneNumber' : option string) : Outcome :=
  attach clock db primaryId' needsNewInfo' email' phoneNumber'.

(** [primaryContacts.reduce((oldest, current) => ... )] without an initial
    value: the current element replaces the oldest so far when its
    [createdAt], read by [new Date], is strictly the smaller date. *)
Definition oldest_of (clock : Clock) (first : Contact) (rest : list Contact) : Contact :=
  fold_left (fun oldest current =>
               if (date_of clock (createdAt current)
                   <? date_of clock (createdAt oldest))%Z
               then current else oldest)
            rest first.

(** The first loop of [mergePrimaryContacts]. *)
Definition demote_others (clock : Clock) (mainPrimary : Contact)
    (primaryContacts' : list Contact) (db : Database) : Database :=
  fold_left (fun db p =>
               if negb (id p =? id mainPrimary)%Z
               then snd (updateContactLink clock db (id p) (Some (id mainPrimary)) secondary)
               else db)
            primaryContacts' db.

(** The second loop of [mergePrimaryContacts]. *)
Definition repoint_secondaries (clock : Clock) (mainPrimary : Contact)
    (secondaryContacts' : list Contact) (db : Database) : Database :=
  fold_left (fun db s =>
               if negb (strict_eqZ (linkedId s) (Some (id mainPrimary)))
               then snd (updateContactLink clock db (id s) (Some (id mainPrimary)) secondary)
               else db)
            secondaryContacts' db.

Definition mergePrimaryContacts (clock : Clock) (db : Database)
    (primaryContacts' secondaryContacts' : list Contact)
    (email' phoneNumber' : option string) : Outcome :=
  match primaryContacts' with
  | [] => (inl (TypeError "Reduce of empty array with no initial value"), db)
  | first :: rest =>
      let mainPrimary := oldest_of clock first rest in
      let db1 := demote_others clock mainPrimary primaryContacts' db in
      let db2 := repoint_secondaries clock mainPrimary secondaryContacts' db1 in
      let allContacts := (primaryContacts' ++ secondaryContacts')%list in
      attach clock db2 (Some (id mainPrimary))
             (determineNewInfo allContacts email' phoneNumber')
             email' phoneNumber'
  end.

Definition executeConsolidation (clock : Clock) (db : Database) (plan : Plan)
    (email' phoneNumber' : option string) : Outcome :=
  match plan with
  | return_existing primaryContact' =>
      match read_id primaryContact' with
      | inl err => (inl err, db)
      | inr i => (inr (buildResponse db (Some i)), db)
      end
  | merge_primaries primaryContacts' secondaryContacts' =>
      mergePrimaryContacts clock db primaryContacts' secondaryContacts'
                           email' phoneNumber'
  | create_secondary primaryContact' needsNewInfo' =>
      createSecondaryContact clock db primaryContact' needsNewInfo'
                             email' phoneNumber'
  | link_to_existing_primary primaryId' needsNewInfo' =>
      linkToExistingPrimary clock db primaryId' needsNewInfo' email' phoneNumber'
  | create_new_primary => createNewPrimaryContact clock db email' phoneNumber'
  end.

Definition invalid_phone_error : Error :=
  CustomError "Invalid phone number format" 400 "INVALID_PHONE_NUMBER".

Definition identifyContact (clock : Clock) (db : Database)
    (email' phoneNumber' : option string) : Outcome :=
  if truthy phoneNumber' && negb (ten_digits (param_text phoneNumber'))
  then (inl invalid_phone_error, db)
  else
    let existingContacts := findContactsByEmailOrPhone db email' phoneNumber' in
    match existingContacts with
    | [] => createNewPrimaryContact clock db email' phoneNumber'
    | _ :: _ =>
        executeConsolidation clock db
          (analyzeContacts existingContacts email' phoneNumber')
          email' phoneNumber'
    end.

Definition getDatabaseStats (db : Database) : Stats := getStats db.

End ContactService.

Import DatabaseManager ContactService.

(* ------------------------------------------------------------------ *)
(** ** server.js: the validators and the [/identify] route

    A string is read here as the UTF-8 bytes of the JavaScript string, so
    that a character of the class [\s] is one, two or three bytes long.
    The route is modelled on request bodies whose two fields are present,
    each [null] or a string; the request id of a failure response, drawn at
    random by the code, is an input, and what the route writes to the log
    is left out. *)

Module Server.

(** The three-byte characters of [\s]: U+1680, U+2000 to U+200A, U+2028,
    U+2029, U+202F, U+205F, U+3000 and U+FEFF. *)
Definition wide_space (x y z : nat) : bool :=
  ((x =? 225) && (y =? 154) && (z =? 128)
   || (x =? 226) && (y =? 128)
      && ((128 <=? z) && (z <=? 138) || (z =? 168) || (z =? 169) || (z =? 175))
   || (x =? 226) && (y =? 129) && (z =? 159)
   || (x =? 227) && (y =? 128) && (z =? 128)
   || (x =? 239) && (y =? 187) && (z =? 191))%nat.

(** The length in bytes of the [\s] character the string starts with, or 0
    when it starts with none: tab to carriage return and space; U+00A0; the
    three-byte ones. *)
Definition space_width (s : string) : nat :=
  match s with
  | EmptyString => 0%nat
  | String a r =>
      let x := nat_of_ascii a in
      if ((9 <=? x) && (x <=? 13) || (x =? 32))%nat then 1%nat
      else
        match r with
        | EmptyString => 0%nat
        | String b r' =>
            let y := nat_of_ascii b in
            if ((x =? 194) && (y =? 160))%nat then 2%nat
            else
              match r' with
              | EmptyString => 0%nat
              | String c _ =>
                  if wide_space x y (nat_of_ascii c) then 3%nat else 0%nat
              end
        end
  end.

(** [-], [(] and [)]. *)
Definition is_separator (a : ascii) : bool :=
  let x := nat_of_ascii a in ((x =? 45) || (x =? 40) || (x =? 41))%nat.

(** [s.replace(/[\s\-\(\)]/g, '')]; [skip] counts the bytes still to drop of
    a character being removed. *)
Fixpoint strip_from (skip : nat) (s : string) : string :=
  match s with
  | EmptyString => EmptyString
  | String a r =>
      match skip with
      | S k => strip_from k r
      | O =>
          if is_separator a then strip_from 0 r
          else
            match space_width (String a r) with
            | O => String a (strip_from 0 r)
            | S k => strip_from k r
            end
      end
  end.

(** [/^[\+]?[1-9][\d]{0,15}$/.test(s)]. *)
Definition phone_pattern (s : string) : bool :=
  let digits :=
    match s with
    | String a r => if (nat_of_ascii a =? 43)%nat then r else s
    | EmptyString => s
    end in
  match digits with
  | EmptyString => false
  | String a r =>
      let x := nat_of_ascii a in
      ((49 <=? x) && (x <=? 57))%nat && all_digits r
      && (String.length r <=? 15)%nat
  end.

Definition isValidPhoneNumber (phoneNumber' : string) : bool :=
  phone_pattern (strip_from 0 phoneNumber').

(** Some character of the string is in [\s]. *)
Fixpoint has_space (s : string) : bool :=
  match s with
  | EmptyString => false
  | String a r => (0 <? space_width (String a r))%nat || has_space r
  end.

Fixpoint has_at (s : string) : bool :=
  match s with
  | EmptyString => false
  | String a r => (nat_of_ascii a =? 64)%nat || has_at r
  end.

(** The part of a string before its first [@] and the part after it. *)
Fixpoint split_at (s : string) : option (string * string) :=
  match s with
  | EmptyString => None
  | String a r =>
      if (nat_of_ascii a =? 64)%nat then Some (EmptyString, r)
      else match split_at r with
           | Some (l, d) => Some (String a l, d)
           | None => None
           end
  end.

(** The string holds a dot that is not its last character. *)
Fixpoint dot_then_more (s : string) : bool :=
  match s with
  | EmptyString => false
  | String a r =>
      (nat_of_ascii a =? 46)%nat && negb (String.length r =? 0)%nat
      || dot_then_more r
  end.

(** [/^[^\s@]+@[^\s@]+\.[^\s@]+$/.test(s)]: no character of [\s], one [@]
    with something before it, and after it a dot that is neither the first
    nor the last character. *)
Definition isValidEmail (email' : string) : bool :=
  negb (has_space email')
  && match split_at email' with
     | Some (l, d) =>
         negb (String.length l =? 0)%nat && negb (has_at d)
         && match d with
            | String _ r => dot_then_more r
            | EmptyString => false
            end
     | None => false
     end.

(** The JSON bodies the route sends. *)
Inductive ResponseBody : Set :=
| ErrorBody (error code : string) (message : option string)
| ContactBody (contact : ConsolidatedView)
| FailureBody (error code requestId : string).

Record Response : Set := mkResponse {
  status : Z;
  body : ResponseBody
}.

(** The handler of [POST /identify]. *)
Definition post_identify (clock : Clock) (requestId : string) (db : Database)
    (email' phoneNumber' : option string) : Response * Database :=
  if negb (truthy email') && negb (truthy phoneNumber') then
    (mkResponse 400 (ErrorBody "Invalid request format" "MISSING_CONTACT_INFO"
                               (Some "At least one contact method required")),
     db)
  else if truthy email' && negb (isValidEmail (param_text email')) then
    (mkResponse 400 (ErrorBody "Invalid email format" "VALIDATION_ERROR" None), db)
  else if truthy phoneNumber'
          && negb (isValidPhoneNumber (param_text phoneNumber')) then
    (mkResponse 400 (ErrorBody "Invalid phone format" "VALIDATION_ERROR" None), db)
  else
    match ContactService.identifyContact clock db email' phoneNumber' with
    | (inr result, db') =>
        (mkResponse 200
           (ContactBody (mkView (primaryContactId result) (emails result)
                                (phoneNumbers result)
                                (secondaryContactIds result))),
         db')
    | (inl _, db') =>
        (mkResponse 500 (FailureBody "Service temporarily unavailable"
                                     "INTERNAL_ERROR" requestId),
         db')
    end.

End Server.

Import Server.

(* ------------------------------------------------------------------ *)
(** ** A recorded session

    The host of the examples is in UTC and its clock ticks one second per
    write statement. *)

Definition tick_clock : Clock := mkClock (fun k => 1000 + Z.of_nat k) (fun t => t).

(** The database left behind by one more call. *)
Definition after (db : Database) (email' phoneNumber' : option string) : Database :=
  snd (identifyContact tick_clock db email' phoneNumber').

Definition session1 : Database :=
  after empty_db (Some "a@x.com") (Some "1111111111").
Definition session2 : Database :=
  after session1 (Some "b@x.com") (Some "2222222222").
Definition session3 : Database :=
  after session2 (Some "b@x.com") (Some "3333333333").
Definition session4 : Database :=
  after session3 (Some "a@x.com") (Some "2222222222").

(** A store where one email was first seen with a phone and later a second
    email was seen with the same phone. *)
Definition linked2 : Database :=
  after session1 (Some "b@x.com") (Some "1111111111").

(** A store where a second phone was attached to a known email. *)
Definition attached2 : Database :=
  after session1 (Some "a@x.com") (Some "2222222222").

(** A store where two primaries were merged by a third call. *)
Definition merged3 : Database :=
  after session2 (Some "a@x.com") (Some "2222222222").

(** A clock that does not move: every statement falls in the same second. *)
Definition same_second : Clock := mkClock (fun _ => 1000) (fun t => t).

(** Two unrelated primaries created within one second. *)
Definition tied1 : Database :=
  snd (identifyContact same_second empty_db (Some "a@x.com") (Some "1111111111")).
Definition tied2 : Database :=
  snd (identifyContact same_second tied1 (Some "b@x.com") (Some "2222222222")).

(** A host five hours behind UTC on the day its clocks jump from 02:00 to
    03:00.  Timestamps are seconds of that day.  A text before 03:00:00 is
    read with the winter offset (one inside the skipped hour included), a
    later one with the summer offset.  The first write happens at 02:30:00
    UTC, the later ones at 03:10:00 UTC. *)
Definition spring_forward : Clock :=
  mkClock (fun k => match k with O => 9000 | S _ => 11400 end)
          (fun t => if (t <? 10800)%Z then t + 18000 else t + 14400).

(** Two unrelated primaries created forty minutes apart on that host. *)
Definition gap1 : Database :=
  snd (identifyContact spring_forward empty_db (Some "a@x.com") (Some "1111111111")).
Definition gap2 : Database :=
  snd (identifyContact spring_forward gap1 (Some "b@x.com") (Some "2222222222")).

(** The development data of the setup script: [insertTestData] inserts its
    three sample contacts through the store, each as a primary. *)
Definition testContacts : list (string * string) :=
  [("doc.brown@zamazon.com", "555-0101");
   ("emmett@zamazon.com", "555-0102");
   ("marty@zamazon.com", "555-0103")].

Definition insertTestData (clock : Clock) (db : Database) : Database :=
  fold_left (fun db contact =>
               snd (createContact clock db (Some (fst contact)) (Some (snd contact))
                                  None primary))
            testContacts db.

Definition seeded : Database := insertTestData tick_clock empty_db.

(** Two primaries holding the same email, inserted through the store as two
    overlapping first calls with that email insert them. *)
Definition raced1 : Database :=
  snd (createContact tick_clock empty_db
                     (Some "a@x.com") (Some "1111111111") None primary).
Definition raced2 : Database :=
  snd (createContact tick_clock raced1
                     (Some "a@x.com") (Some "2222222222") None primary).

(* ------------------------------------------------------------------ *)
(** ** Predicates on stores *)

(** No secondary's [linkedId] names a row that is itself a secondary. *)
Definition links_flat (db : Database) : bool :=
  forallb (fun s =>
             negb (is_secondary s)
             || forallb (fun t => negb (strict_eqZ (Some (id t)) (linkedId s))
                                  || is_primary t)
                        (rows db))
          (rows db).

(** The stores the service can build: the empty database, and whatever a
    call of [identifyContact] leaves behind. *)
Inductive reachable (clock : Clock) : Database -> Prop :=
| reachable_empty : reachable clock empty_db
| reachable_identify (db : Database) (e p : option string) :
    reachable clock db ->
    reachable clock (snd (identifyContact clock db e p)).

(** [a] was not created later than [b]. *)
Definition not_later (a b : Contact) : Prop := createdAt a <= createdAt b.

(** If [a] is a primary then so is [b]: in a list sorted by this relation
    every secondary comes before every primary. *)
Definition primary_last (a b : Contact) : Prop :=
  linkPrecedence a = primary -> linkPrecedence b = primary.

(** What a run of link updates towards [m] aimed at the ids [T] does to one
    row: a targeted row gets the new link (and some new [updatedAt]), any
    other row is left as it was. *)
Definition touched (T : list Z) (m : Z) (c c' : Contact) : Prop :=
  (In (id c) T -> exists now, c' = set_link (Some m) secondary now c)
  /\ (~ In (id c) T -> c' = c).

(** The ids the two loops of [mergePrimaryContacts] aim at. *)
Definition merge_targets (mainPrimary : Contact)
    (primaryContacts' secondaryContacts' : list Contact) : list Z :=
  (map id (filter (fun p => negb (id p =? id mainPrimary)%Z) primaryContacts')
   ++ map id (filter (fun s => negb (strict_eqZ (linkedId s) (Some (id mainPrimary))))
                     secondaryContacts'))%list.

(** What holds of every store the service builds: keys ascend in rowid
    order, no row is tombstoned, a non-empty email or phone is held by one
    row only, and a non-empty phone is ten digits. *)
Record store_invariant (db : Database) : Prop := {
  inv_ids : StronglySorted Z.lt (map id (rows db));
  inv_live : forall c, In c (rows db) -> deletedAt c = None;
  inv_emails : forall c1 c2 s,
      In c1 (rows db) -> In c2 (rows db) ->
      email c1 = Some s -> email c2 = Some s -> s <> "" -> id c1 = id c2;
  inv_phones : forall c1 c2 s,
      In c1 (rows db) -> In c2 (rows db) ->
      phoneNumber c1 = Some s -> phoneNumber c2 = Some s -> s <> "" ->
      id c1 = id c2;
  inv_digits : forall c s,
      In c (rows db) -> phoneNumber c = Some s -> s <> "" -> ten_digits s = true
}.

(** A supplied (truthy) value is held, in the given field, by a live member
    of the group rooted at [g]. *)
Definition held_in_group (db : Database) (g : Z)
    (field : Contact -> option string) (v : option string) : Prop :=
  truthy v = true ->
  exists c, In c (rows db) /\ in_group (Some g) c = true /\ field c = v.

(** How a call may leave a row it found in the table: key, email, phone,
    creation time and tombstone as they were; the row itself untouched, or
    relinked as a secondary. *)
Definition kept_as (c c' : Contact) : Prop :=
  id c' = id c /\ email c' = email c /\ phoneNumber c' = phoneNumber c
  /\ createdAt c' = createdAt c /\ deletedAt c' = deletedAt c
  /\ (c' = c
      \/ (linkPrecedence c' = secondary /\ exists m, linkedId c' = Some m)).

(** Links are well formed: a primary has a null [linkedId], a secondary
    names a row of the table. *)
Definition links_wellformed (db : Database) : Prop :=
  forall c, In c (rows db) ->
    (linkPrecedence c = primary -> linkedId c = None)
    /\ (linkPrecedence c = secondary ->
        exists t, In t (rows db) /\ linkedId c = Some (id t)).

(** The order of [ORDER BY linkPrecedence DESC, createdAt ASC], as a
    relation. *)
Definition group_order (a b : Contact) : Prop :=
  by_precedence_desc_createdAt a b = true.

(* ------------------------------------------------------------------ *)
(** ** Arrays and sets of strings *)

Lemma includes_In (l : list string) (s : string) :
  includes l s = true <-> In s l.
Proof.
  induction l as [|x t IH]; simpl.
  - split; [discriminate | tauto].
  - rewrite orb_true_iff, IH, String.eqb_eq. tauto.
Qed.

Lemma includes_false (l : list string) (s : string) :
  includes l s = false <-> ~ In s l.
Proof.
  rewrite <- includes_In. destruct (includes l s); split; congruence.
Qed.

Lemma filter_Boolean_In (l : list (option string)) (s : string) :
  In s (filter_Boolean l) <-> In (Some s) l /\ s <> "".
Proof.
  induction l as [|[x|] t IH]; simpl.
  - tauto.
  - destruct (String.eqb_spec x "") as [E|E]; simpl; rewrite IH;
      split; intros H.
    + destruct H; split; auto.
    + destruct H as [[H|H] Hs]; [congruence | auto].
    + destruct H as [H|[H Hs]]; [subst; split; auto | split; auto].
    + destruct H as [[H|H] Hs]; [left; congruence | right; auto].
  - rewrite IH. split; intros [H Hs]; split; auto.
    destruct H; [discriminate | assumption].
Qed.

Lemma set_of_acc_In (l seen : list string) (s : string) :
  In s (set_of_acc seen l) <-> In s l /\ ~ In s seen.
Proof.
  revert seen; induction l as [|x t IH]; intros seen; simpl.
  - tauto.
  - destruct (includes seen x) eqn:E.
    + apply includes_In in E. rewrite IH. split.
      * intros [H Hn]; auto.
      * intros [[H|H] Hn]; [subst; contradiction | auto].
    + apply includes_false in E. simpl. rewrite IH. simpl. split.
      * intros [H|[H Hn]]; [subst; auto | split; auto].
      * intros [[H|H] Hn]; [auto|].
        destruct (string_dec x s); [auto | right; split; auto].
        intros [?|?]; auto.
Qed.

Lemma set_of_acc_NoDup (l seen : list string) : NoDup (set_of_acc seen l).
Proof.
  revert seen; induction l as [|x t IH]; intros seen; simpl.
  - constructor.
  - destruct (includes seen x); [apply IH|].
    constructor; [|apply IH].
    rewrite set_of_acc_In. simpl. tauto.
Qed.

Lemma set_of_In (l : list string) (s : string) : In s (set_of l) <-> In s l.
Proof. unfold set_of. rewrite set_of_acc_In. simpl. tauto. Qed.

Lemma set_of_NoDup (l : list string) : NoDup (set_of l).
Proof. apply set_of_acc_NoDup. Qed.

Lemma truthy_Some (v : option string) :
  truthy v = true <-> exists s, v = Some s /\ s <> "".
Proof.
  destruct v as [s|]; simpl.
  - rewrite negb_true_iff. destruct (String.eqb_spec s ""); split.
    + discriminate.
    + intros (t & [= <-] & H); contradiction.
    + eauto.
    + reflexivity.
  - split; [discriminate | intros (s & H & _); discriminate].
Qed.

(* ------------------------------------------------------------------ *)
(** ** Queries: [ORDER BY] keeps the selected rows *)

Section OrderByFacts.
Variable le : Contact -> Contact -> bool.

Lemma insert_row_In (x y : Contact) (l : list Contact) :
  In y (insert_row le x l) <-> x = y \/ In y l.
Proof.
  induction l as [|z t IH]; simpl.
  - tauto.
  - destruct (le x z); simpl; [tauto | rewrite IH; tauto].
Qed.

Lemma order_by_In (y : Contact) (l : list Contact) :
  In y (order_by le l) <-> In y l.
Proof.
  induction l as [|x t IH]; simpl; [tauto|].
  rewrite insert_row_In, IH. tauto.
Qed.

End OrderByFacts.

(* ------------------------------------------------------------------ *)
(** ** The store operations *)

Lemma max_rowid_ge (l : list Contact) (c : Contact) :
  In c l -> id c <= max_rowid l.
Proof.
  induction l as [|x t IH]; simpl; [tauto|].
  intros [->|H]; [lia | specialize (IH H); lia].
Qed.

Lemma next_id_fresh (db : Database) (c : Contact) :
  In c (rows db) -> id c < next_id db.
Proof.
  intros H. apply max_rowid_ge in H. unfold next_id. lia.
Qed.

Lemma find_app_fresh (l : list Contact) (row : Contact) :
  (forall c, In c l -> id c <> id row) ->
  find (fun c => (id c =? id row)%Z) (l ++ [row]) = Some row.
Proof.
  intros H. induction l as [|x t IH]; simpl.
  - now rewrite Z.eqb_refl.
  - destruct (Z.eqb_spec (id x) (id row)) as [E|E].
    + exfalso. apply (H x); simpl; auto.
    + apply IH. intros c Hc. apply H. simpl; auto.
Qed.

(** The row handed back by [createContact] is the row it inserted. *)
Lemma createContact_spec (clock : Clock) (db : Database)
    (e p : option string) (l : option Z) (prec : LinkPrecedence) :
  let row := mkContact (next_id db) p e l prec
                       (clock (stmts db)) (clock (stmts db)) None in
  createContact clock db e p l prec =
    (Some row, mkDatabase (rows db ++ [row]) (next_id db) (S (stmts db))).
Proof.
  intros row. unfold createContact, get_by_id. cbn [rows].
  fold row. f_equal.
  apply (find_app_fresh (rows db) row).
  intros c Hc. apply next_id_fresh in Hc. subst row; simpl. lia.
Qed.

Lemma createNewPrimaryContact_spec (clock : Clock) (db : Database)
    (e p : option string) :
  let row := mkContact (next_id db) p e None primary
                       (clock (stmts db)) (clock (stmts db)) None in
  createNewPrimaryContact clock db e p =
    (inr (mkView (Some (next_id db))
                 (if truthy e then [param_text e] else [])
                 (if truthy p then [param_text p] else [])
                 []),
     mkDatabase (rows db ++ [row]) (next_id db) (S (stmts db))).
Proof.
  intros row. unfold createNewPrimaryContact.
  rewrite createContact_spec. reflexivity.
Qed.

(* ------------------------------------------------------------------ *)
(** ** The shape of a returned view *)

Lemma attach_result (clock : Clock) (db : Database) (pid : option Z)
    (n : NewInfo) (e p : option string) :
  fst (attach clock db pid n e p)
  = inr (buildResponse (snd (attach clock db pid n e p)) pid).
Proof. reflexivity. Qed.

(** A view is that of a freshly created primary, or is built from the
    group fetch on the database the call leaves behind. *)
Lemma identify_view_cases (clock : Clock) (db db' : Database)
    (e p : option string) (v : ConsolidatedView) :
  identifyContact clock db e p = (inr v, db') ->
  (emails v = (if truthy e then [param_text e] else [])
   /\ phoneNumbers v = (if truthy p then [param_text p] else []))
  \/ exists pid, v = buildResponse db' pid.
Proof.
  unfold identifyContact.
  destruct (truthy p && negb (ten_digits (param_text p))); [discriminate|].
  assert (Hnew : createNewPrimaryContact clock db e p = (inr v, db') ->
                 emails v = (if truthy e then [param_text e] else [])
                 /\ phoneNumbers v = (if truthy p then [param_text p] else [])).
  { rewrite createNewPrimaryContact_spec. intros [= <- _]. simpl. auto. }
  assert (Hatt : forall d pid n, attach clock d pid n e p = (inr v, db') ->
                 exists pid, v = buildResponse db' pid).
  { intros d pid n H. exists pid.
    pose proof (attach_result clock d pid n e p) as R.
    rewrite H in R. simpl in R. congruence. }
  destruct (findContactsByEmailOrPhone db e p) as [|c0 l0]; [auto|].
  destruct (analyzeContacts (c0 :: l0) e p) as [pc|ps ss|pc n|pid n|]; simpl.
  - destruct pc as [c|]; simpl; [|discriminate].
    intros [= <- <-]. right. eauto.
  - unfold mergePrimaryContacts. destruct ps as [|f r]; [discriminate|].
    intros H. right. eapply Hatt, H.
  - intros H. right. eapply Hatt, H.
  - intros H. right. eapply Hatt, H.
  - auto.
Qed.

Lemma buildResponse_emails_In (db : Database) (pid : option Z) (s : string) :
  In s (emails (buildResponse db pid)) <->
  exists c, In c (getLinkedContacts db pid) /\ email c = Some s /\ s <> "".
Proof.
  simpl. rewrite set_of_In, filter_Boolean_In, in_map_iff. split.
  - intros [(c & E & H) Hs]. eauto.
  - intros (c & H & E & Hs). eauto.
Qed.

Lemma buildResponse_phoneNumbers_In (db : Database) (pid : option Z) (s : string) :
  In s (phoneNumbers (buildResponse db pid)) <->
  exists c, In c (getLinkedContacts db pid) /\ phoneNumber c = Some s /\ s <> "".
Proof.
  simpl. rewrite set_of_In, filter_Boolean_In, in_map_iff. split.
  - intros [(c & E & H) Hs]. eauto.
  - intros (c & H & E & Hs). eauto.
Qed.

(* ------------------------------------------------------------------ *)
(** ** Runs of link updates *)

Lemma touched_id (T : list Z) (m : Z) (c c' : Contact) :
  touched T m c c' -> id c' = id c.
Proof.
  intros [H1 H2]. destruct (in_dec Z.eq_dec (id c) T) as [H|H].
  - destruct (H1 H) as [now ->]. reflexivity.
  - now rewrite (H2 H).
Qed.

Lemma touched_cases (T : list Z) (m : Z) (c c' : Contact) :
  touched T m c c' ->
  c' = c \/ exists now, c' = set_link (Some m) secondary now c.
Proof.
  intros [H1 H2]. destruct (in_dec Z.eq_dec (id c) T) as [H|H]; auto.
Qed.

Lemma touched_keys (T : list Z) (m : Z) (c c' : Contact) :
  touched T m c c' ->
  email c' = email c /\ phoneNumber c' = phoneNumber c
  /\ createdAt c' = createdAt c /\ deletedAt c' = deletedAt c.
Proof.
  intros H. destruct (touched_cases _ _ _ _ H) as [->|[now ->]]; simpl; auto.
Qed.

Lemma touched_refl (m : Z) (rs : list Contact) : Forall2 (touched [] m) rs rs.
Proof.
  induction rs; constructor; auto. split; simpl; [tauto | reflexivity].
Qed.

Lemma touched_step (T : list Z) (m i now : Z) (rs rs' : list Contact) :
  Forall2 (touched T m) rs rs' ->
  Forall2 (touched (T ++ [i]) m) rs
          (map (fun c => if (id c =? i)%Z
                         then set_link (Some m) secondary now c else c) rs').
Proof.
  induction 1 as [|c c' rs rs' H _ IH]; simpl; constructor; auto.
  pose proof (touched_id _ _ _ _ H) as Hid.
  pose proof (touched_cases _ _ _ _ H) as Hc.
  destruct H as [H1 H2]. rewrite Hid.
  destruct (Z.eqb_spec (id c) i) as [E|E]; split.
  - intros _. exists now. destruct Hc as [->|[n0 ->]]; reflexivity.
  - intros Hn. exfalso. apply Hn, in_or_app. right. simpl; auto.
  - intros Hin. apply in_app_or in Hin. destruct Hin as [Hin|[Hin|[]]].
    + auto.
    + congruence.
  - intros Hn. apply H2. intros Hin. apply Hn, in_or_app. auto.
Qed.

(** A guarded loop of [updateContactLink] calls, as in both loops of
    [mergePrimaryContacts]. *)
Lemma link_loop_touched (clock : Clock) (m : Z) (g : Contact -> bool)
    (xs : list Contact) (rs0 : list Contact) (T : list Z) (db : Database) :
  Forall2 (touched T m) rs0 (rows db) ->
  let db' := fold_left
               (fun db x => if g x
                            then snd (updateContactLink clock db (id x) (Some m) secondary)
                            else db)
               xs db in
  Forall2 (touched (T ++ map id (filter g xs)) m) rs0 (rows db')
  /\ seq db' = seq db.
Proof.
  revert T db. induction xs as [|x xs IH]; intros T db H; simpl.
  - rewrite app_nil_r. auto.
  - destruct (g x) eqn:G; simpl.
    + specialize (IH (T ++ [id x])%list
                     (snd (updateContactLink clock db (id x) (Some m) secondary))).
      simpl in IH. destruct IH as [IH1 IH2].
      * now apply touched_step.
      * split; [|exact IH2]. now rewrite <- app_assoc in IH1.
    + apply IH, H.
Qed.

Lemma merge_loops_touched (clock : Clock) (db : Database) (mainPrimary : Contact)
    (ps ss : list Contact) :
  let db2 := repoint_secondaries clock mainPrimary ss
               (demote_others clock mainPrimary ps db) in
  Forall2 (touched (merge_targets mainPrimary ps ss) (id mainPrimary))
          (rows db) (rows db2)
  /\ seq db2 = seq db.
Proof.
  unfold repoint_secondaries, demote_others, merge_targets.
  pose proof (link_loop_touched clock (id mainPrimary)
                (fun p => negb (id p =? id mainPrimary)%Z) ps (rows db) [] db
                (touched_refl _ _)) as [H1 S1].
  cbn [app] in H1.
  pose proof (link_loop_touched clock (id mainPrimary)
                (fun s => negb (strict_eqZ (linkedId s) (Some (id mainPrimary))))
                ss (rows db) _ _ H1) as [H2 S2].
  split; [exact H2 | now rewrite S2, S1].
Qed.

(** Looking a row up by its key after such a run. *)
Lemma touched_lookup (T : list Z) (m : Z) (rs rs' : list Contact) (c : Contact) :
  Forall2 (touched T m) rs rs' ->
  NoDup (map id rs) ->
  In c rs ->
  exists c', find (fun x => (id x =? id c)%Z) rs' = Some c' /\ touched T m c c'.
Proof.
  induction 1 as [|x x' rs rs' H _ IH]; simpl; [tauto|].
  intros ND Hin. inversion ND as [|? ? Hx ND']; subst.
  rewrite (touched_id _ _ _ _ H).
  destruct Hin as [->|Hin].
  - rewrite Z.eqb_refl. eauto.
  - destruct (Z.eqb_spec (id x) (id c)) as [E|E].
    + exfalso. apply Hx. rewrite E. now apply in_map.
    + auto.
Qed.

Lemma find_app_found (f : Contact -> bool) (l l' : list Contact) (c : Contact) :
  find f l = Some c -> find f (l ++ l') = Some c.
Proof.
  induction l as [|x t IH]; simpl; [discriminate|].
  destruct (f x); auto.
Qed.

Lemma touched_In (T : list Z) (m : Z) (rs rs' : list Contact) (c : Contact) :
  Forall2 (touched T m) rs rs' -> In c rs ->
  exists c', In c' rs' /\ touched T m c c'.
Proof.
  induction 1 as [|x x' rs rs' H _ IH]; simpl; [tauto|].
  intros [->|Hin]; [eauto|]. destruct (IH Hin) as (c' & ? & ?). eauto.
Qed.

Lemma touched_In_inv (T : list Z) (m : Z) (rs rs' : list Contact) (c' : Contact) :
  Forall2 (touched T m) rs rs' -> In c' rs' ->
  exists c, In c rs /\ touched T m c c'.
Proof.
  induction 1 as [|x x' rs rs' H _ IH]; simpl; [tauto|].
  intros [->|Hin]; [eauto|]. destruct (IH Hin) as (c & ? & ?). eauto.
Qed.

Lemma touched_map_id (T : list Z) (m : Z) (rs rs' : list Contact) :
  Forall2 (touched T m) rs rs' -> map id rs' = map id rs.
Proof.
  induction 1 as [|x x' rs rs' H _ IH]; simpl; [reflexivity|].
  rewrite IH, (touched_id _ _ _ _ H). reflexivity.
Qed.

(* ------------------------------------------------------------------ *)
(** ** The merge *)

Lemma strict_eqZ_true (a b : option Z) : strict_eqZ a b = true <-> a = b.
Proof.
  destruct a as [x|], b as [y|]; simpl; try (split; congruence).
  rewrite Z.eqb_eq. split; congruence.
Qed.

Lemma strict_eq_true (a b : option string) : strict_eq a b = true <-> a = b.
Proof.
  destruct a as [x|], b as [y|]; simpl; try (split; congruence).
  rewrite String.eqb_eq. split; congruence.
Qed.

Lemma is_primary_true (c : Contact) :
  is_primary c = true <-> linkPrecedence c = primary.
Proof. unfold is_primary. destruct (linkPrecedence c); simpl; split; congruence. Qed.

Lemma is_secondary_true (c : Contact) :
  is_secondary c = true <-> linkPrecedence c = secondary.
Proof. unfold is_secondary. destruct (linkPrecedence c); simpl; split; congruence. Qed.

Lemma oldest_of_In (clock : Clock) (first : Contact) (rest : list Contact) :
  In (oldest_of clock first rest) (first :: rest).
Proof.
  unfold oldest_of. revert first.
  induction rest as [|x t IH]; intros first; simpl; [auto|].
  destruct (date_of clock (createdAt x) <? date_of clock (createdAt first))%Z.
  - destruct (IH x) as [H|H]; [right; left; exact H | right; right; exact H].
  - destruct (IH first) as [H|H]; [left; exact H | right; right; exact H].
Qed.

Lemma attach_db (clock : Clock) (db : Database) (pid : option Z)
    (n : NewInfo) (e p : option string) :
  snd (attach clock db pid n e p)
  = if needsEmail n || needsPhone n
    then mkDatabase
           (rows db
            ++ [mkContact (next_id db)
                          (if needsPhone n then p else None)
                          (if needsEmail n then e else None)
                          pid secondary
                          (clock (stmts db)) (clock (stmts db)) None])
           (next_id db) (S (stmts db))
    else db.
Proof.
  unfold attach. cbn [snd].
  destruct (needsEmail n || needsPhone n); [|reflexivity].
  now rewrite createContact_spec.
Qed.

Lemma attach_rows (clock : Clock) (db : Database) (pid : option Z)
    (n : NewInfo) (e p : option string) :
  exists extra, rows (snd (attach clock db pid n e p)) = (rows db ++ extra)%list.
Proof.
  rewrite attach_db. destruct (needsEmail n || needsPhone n); simpl.
  - eauto.
  - exists []. now rewrite app_nil_r.
Qed.

Lemma mergePrimaryContacts_spec (clock : Clock) (db : Database)
    (first : Contact) (rest ss : list Contact) (e p : option string) :
  let ps := first :: rest in
  let mainPrimary := oldest_of clock first rest in
  exists db2,
    Forall2 (touched (merge_targets mainPrimary ps ss) (id mainPrimary))
            (rows db) (rows db2)
    /\ seq db2 = seq db
    /\ mergePrimaryContacts clock db ps ss e p
       = (inr (buildResponse
                 (snd (attach clock db2 (Some (id mainPrimary))
                              (determineNewInfo (ps ++ ss) e p) e p))
                 (Some (id mainPrimary))),
          snd (attach clock db2 (Some (id mainPrimary))
                      (determineNewInfo (ps ++ ss) e p) e p)).
Proof.
  intros ps mainPrimary.
  exists (repoint_secondaries clock mainPrimary ss
            (demote_others clock mainPrimary ps db)).
  destruct (merge_loops_touched clock db mainPrimary ps ss) as [H S].
  repeat split; auto.
Qed.

Lemma NoDup_ids_eq (rs : list Contact) (a b : Contact) :
  NoDup (map id rs) -> In a rs -> In b rs -> id a = id b -> a = b.
Proof.
  induction rs as [|x t IH]; simpl; [tauto|].
  intros ND Ha Hb E. inversion ND as [|? ? Hx ND']; subst.
  destruct Ha as [->|Ha], Hb as [->|Hb]; auto.
  - exfalso. apply Hx. rewrite E. now apply in_map.
  - exfalso. apply Hx. rewrite <- E. now apply in_map.
Qed.

(** What a merge does to each row of a store with unique keys, given the
    matched primaries [first :: rest] and the matched secondaries [ss]. *)
Lemma mergePrimaryContacts_effect (clock : Clock) (db : Database)
    (first : Contact) (rest ss : list Contact) (e p : option string) :
  let ps := first :: rest in
  let mainPrimary := oldest_of clock first rest in
  NoDup (map id (rows db)) ->
  (forall c, In c ps -> In c (rows db) /\ linkPrecedence c = primary) ->
  (forall c, In c ss -> In c (rows db) /\ linkPrecedence c = secondary) ->
  exists db',
    mergePrimaryContacts clock db ps ss e p
    = (inr (buildResponse db' (Some (id mainPrimary))), db')
    /\ get_by_id db' (id mainPrimary) = Some mainPrimary
    /\ (forall s, In s ss -> linkedId s = Some (id mainPrimary) ->
          get_by_id db' (id s) = Some s)
    /\ (forall c, In c (rows db) -> ~ In c (ps ++ ss)%list ->
          get_by_id db' (id c) = Some c)
    /\ (forall c, In c ps -> id c <> id mainPrimary ->
          exists now,
            get_by_id db' (id c)
            = Some (set_link (Some (id mainPrimary)) secondary now c))
    /\ (forall c, In c ss -> linkedId c <> Some (id mainPrimary) ->
          exists now,
            get_by_id db' (id c)
            = Some (set_link (Some (id mainPrimary)) secondary now c)).
Proof.
  intros ps mainPrimary ND Hps Hss.
  destruct (mergePrimaryContacts_spec clock db first rest ss e p)
    as (db2 & HT & _ & Hrun).
  fold mainPrimary in HT, Hrun. fold ps in HT, Hrun.
  set (db' := snd (attach clock db2 (Some (id mainPrimary))
                          (determineNewInfo (ps ++ ss) e p) e p)) in *.
  assert (Hmain : In mainPrimary ps) by apply oldest_of_In.
  assert (Hget : forall c, In c (rows db) ->
            exists c', get_by_id db' (id c) = Some c'
                       /\ touched (merge_targets mainPrimary ps ss)
                                  (id mainPrimary) c c').
  { intros c Hc. destruct (touched_lookup _ _ _ _ c HT ND Hc) as (c' & F & Hc').
    exists c'. split; [|exact Hc'].
    unfold get_by_id, db'. destruct (attach_rows clock db2 (Some (id mainPrimary))
                                  (determineNewInfo (ps ++ ss) e p) e p) as [ex ->].
    now apply find_app_found. }
  assert (Hin : forall c, In c (rows db) ->
            In (id c) (merge_targets mainPrimary ps ss) <->
            (In c ps /\ id c <> id mainPrimary)
            \/ (In c ss /\ linkedId c <> Some (id mainPrimary))).
  { intros c Hc. unfold merge_targets.
    rewrite in_app_iff, !in_map_iff. split.
    - intros [(x & E & Hx)|(x & E & Hx)]; apply filter_In in Hx;
        destruct Hx as [Hx G]; apply negb_true_iff in G.
      + assert (x = c) as -> by
          (eapply NoDup_ids_eq; eauto; apply Hps, Hx).
        left. split; auto. now apply Z.eqb_neq.
      + assert (x = c) as -> by
          (eapply NoDup_ids_eq; eauto; apply Hss, Hx).
        right. split; auto. intros L. apply strict_eqZ_true in L. congruence.
    - intros [[Hx G]|[Hx G]]; [left|right]; exists c; split; auto;
        apply filter_In; split; auto; apply negb_true_iff.
      + now apply Z.eqb_neq.
      + destruct (strict_eqZ (linkedId c) (Some (id mainPrimary))) eqn:L; auto.
        apply strict_eqZ_true in L. contradiction. }
  assert (Hkeep : forall c, In c (rows db) ->
            ~ In (id c) (merge_targets mainPrimary ps ss) ->
            get_by_id db' (id c) = Some c).
  { intros c Hc Hn. destruct (Hget c Hc) as (c' & G & _ & H2).
    now rewrite G, (H2 Hn). }
  assert (Hmove : forall c, In c (rows db) ->
            In (id c) (merge_targets mainPrimary ps ss) ->
            exists now, get_by_id db' (id c)
                        = Some (set_link (Some (id mainPrimary)) secondary now c)).
  { intros c Hc Hi. destruct (Hget c Hc) as (c' & G & H1 & _).
    destruct (H1 Hi) as [now ->]. eauto. }
  exists db'. repeat split.
  - exact Hrun.
  - apply Hkeep; [apply Hps, Hmain|].
    rewrite Hin by apply Hps, Hmain.
    intros [[_ G]|[Hs _]]; [congruence|].
    destruct (Hps _ Hmain) as [_ P1]. destruct (Hss _ Hs) as [_ P2]. congruence.
  - intros s Hs L. apply Hkeep; [apply Hss, Hs|].
    rewrite Hin by apply Hss, Hs.
    intros [[Hp _]|[_ G]]; [|congruence].
    destruct (Hps _ Hp) as [_ P1]. destruct (Hss _ Hs) as [_ P2]. congruence.
  - intros c Hc Hn. apply Hkeep; [exact Hc|].
    rewrite Hin by exact Hc.
    intros [[H _]|[H _]]; apply Hn, in_or_app; auto.
  - intros c Hc G. apply Hmove; [apply Hps, Hc|].
    rewrite Hin by apply Hps, Hc. auto.
  - intros c Hc G. apply Hmove; [apply Hss, Hc|].
    rewrite Hin by apply Hss, Hc. auto.
Qed.

(* ------------------------------------------------------------------ *)
(** ** The match set *)

Lemma matches_true (e p : option string) (c : Contact) :
  matches e p c = true <->
  live c = true
  /\ ((truthy e = true /\ email c = e) \/ (truthy p = true /\ phoneNumber c = p)).
Proof.
  assert (Q : forall (v col : option string),
             truthy v && sql_eq_text col (param_text v) = true
             <-> truthy v = true /\ col = v).
  { intros v col. rewrite andb_true_iff. split; intros [T E]; split; auto.
    - apply truthy_Some in T. destruct T as (s & -> & _). simpl in E.
      destruct col as [x|]; simpl in E; [|discriminate].
      apply String.eqb_eq in E. congruence.
    - subst col. apply truthy_Some in T. destruct T as (s & -> & _).
      simpl. apply String.eqb_refl. }
  unfold matches, email_is, phone_is.
  rewrite andb_true_iff, orb_true_iff, !Q. tauto.
Qed.

Lemma index_or_In (a b : Contact -> bool) (l : list Contact) (c : Contact) :
  In c (index_or a b l) <-> In c l /\ a c || b c = true.
Proof.
  unfold index_or. rewrite in_app_iff, !filter_In.
  destruct (a c), (b c); simpl; intuition congruence.
Qed.

Lemma index_or_Permutation (a b : Contact -> bool) (l : list Contact) :
  Permutation (index_or a b l) (filter (fun c => a c || b c) l).
Proof.
  unfold index_or. induction l as [|x t IH]; simpl; [reflexivity|].
  destruct (a x); simpl.
  - now constructor.
  - destruct (b x); simpl; [|exact IH].
    rewrite <- IH. symmetry. apply Permutation_middle.
Qed.

Lemma findContacts_In (db : Database) (e p : option string) (c : Contact) :
  In c (findContactsByEmailOrPhone db e p) <->
  In c (rows db) /\ matches e p c = true.
Proof.
  unfold findContactsByEmailOrPhone.
  destruct (negb (truthy e) && negb (truthy p)) eqn:G.
  - split; [intros []|]. intros [_ M]. apply matches_true in M.
    apply andb_true_iff in G. destruct G as [G1 G2].
    apply negb_true_iff in G1, G2. destruct M as [_ [[T _]|[T _]]]; congruence.
  - rewrite order_by_In, filter_In, index_or_In. unfold matches.
    rewrite andb_true_iff. tauto.
Qed.

Lemma insert_row_Permutation (le : Contact -> Contact -> bool)
    (x : Contact) (l : list Contact) :
  Permutation (insert_row le x l) (x :: l).
Proof.
  induction l as [|y t IH]; simpl; [reflexivity|].
  destruct (le x y); [reflexivity|].
  rewrite IH. apply perm_swap.
Qed.

Lemma order_by_Permutation (le : Contact -> Contact -> bool) (l : list Contact) :
  Permutation (order_by le l) l.
Proof.
  induction l as [|x t IH]; simpl; [reflexivity|].
  rewrite insert_row_Permutation. now constructor.
Qed.

Lemma filter_NoDup_ids (P : Contact -> bool) (l : list Contact) :
  NoDup (map id l) -> NoDup (map id (filter P l)).
Proof.
  induction l as [|x t IH]; simpl; [auto|].
  intros ND. inversion ND as [|? ? Hx ND']; subst.
  destruct (P x); simpl; [|auto].
  constructor; [|auto].
  intros H. apply Hx. apply in_map_iff in H. destruct H as (y & E & Hy).
  apply filter_In in Hy. rewrite <- E. apply in_map, Hy.
Qed.

Lemma findContacts_NoDup_ids (db : Database) (e p : option string) :
  NoDup (map id (rows db)) ->
  NoDup (map id (findContactsByEmailOrPhone db e p)).
Proof.
  intros ND. unfold findContactsByEmailOrPhone.
  destruct (negb (truthy e) && negb (truthy p)); [constructor|].
  eapply Permutation_NoDup.
  - apply Permutation_map. symmetry. apply order_by_Permutation.
  - apply filter_NoDup_ids. eapply Permutation_NoDup.
    + apply Permutation_map. symmetry. apply index_or_Permutation.
    + now apply filter_NoDup_ids.
Qed.

Lemma same_id_at_most_one (k : Z) (l : list Contact) :
  NoDup (map id l) -> (forall c, In c l -> id c = k) ->
  (List.length l <= 1)%nat.
Proof.
  destruct l as [|a [|b t]]; simpl; intros ND H; try lia.
  exfalso. inversion ND as [|? ? Ha _]; subst. apply Ha. simpl. left.
  rewrite (H a), (H b); auto.
Qed.

Lemma primary_or_secondary (c : Contact) :
  is_primary c = true \/ is_secondary c = true.
Proof. unfold is_primary, is_secondary. destruct (linkPrecedence c); auto. Qed.

(** Nothing is missing when every supplied value is held by a listed row. *)
Lemma determineNewInfo_covered (l : list Contact) (e p : option string) :
  (truthy e = true -> exists c, In c l /\ email c = e) ->
  (truthy p = true -> exists c, In c l /\ phoneNumber c = p) ->
  determineNewInfo l e p = mkNewInfo false false.
Proof.
  intros He Hp. unfold determineNewInfo. f_equal.
  - destruct (truthy e) eqn:T; [|reflexivity]. simpl.
    apply negb_false_iff, includes_In, filter_Boolean_In.
    destruct (He eq_refl) as (c & Hc & E).
    apply truthy_Some in T. destruct T as (s & -> & Hs). simpl.
    split; [|exact Hs]. rewrite <- E. now apply in_map.
  - destruct (truthy p) eqn:T; [|reflexivity]. simpl.
    apply negb_false_iff, includes_In, filter_Boolean_In.
    destruct (Hp eq_refl) as (c & Hc & E).
    apply truthy_Some in T. destruct T as (s & -> & Hs). simpl.
    split; [|exact Hs]. rewrite <- E. now apply in_map.
Qed.

Lemma attach_nothing (clock : Clock) (db : Database) (pid : option Z)
    (e p : option string) :
  snd (attach clock db pid (mkNewInfo false false) e p) = db.
Proof. reflexivity. Qed.

(** The plan is a merge only when two primaries were matched. *)
Lemma analyzeContacts_merge (l : list Contact) (e p : option string)
    (ps ss : list Contact) :
  analyzeContacts l e p = merge_primaries ps ss ->
  ps = filter is_primary l /\ ss = filter is_secondary l
  /\ (2 <= List.length ps)%nat.
Proof.
  unfold analyzeContacts.
  destruct (match find _ l, find _ l with
            | Some a, Some b => if (id a =? id b)%Z then Some a else None
            | _, _ => None
            end); [discriminate|].
  destruct (filter is_primary l) as [|a [|b t]].
  - destruct (filter is_secondary l); discriminate.
  - discriminate.
  - intros [= <- <-]. simpl. repeat split; lia.
Qed.

(** A call whose supplied values are all held by live rows, and whose plan
    is not a merge, issues no write statement. *)
Lemma identify_writes_nothing (clock : Clock) (db : Database)
    (e p : option string) :
  truthy e = true \/ truthy p = true ->
  (truthy e = true ->
     exists c, In c (rows db) /\ live c = true /\ email c = e) ->
  (truthy p = true ->
     exists c, In c (rows db) /\ live c = true /\ phoneNumber c = p) ->
  (forall ps ss,
     analyzeContacts (findContactsByEmailOrPhone db e p) e p
     <> merge_primaries ps ss) ->
  snd (identifyContact clock db e p) = db.
Proof.
  intros Hsome He Hp Hplan. unfold identifyContact.
  destruct (truthy p && negb (ten_digits (param_text p))); [reflexivity|].
  set (M := findContactsByEmailOrPhone db e p) in *.
  assert (HeM : truthy e = true -> exists c, In c M /\ email c = e).
  { intros T. destruct (He T) as (c & Hc & L & E). exists c. split; auto.
    apply findContacts_In. split; auto. apply matches_true. auto. }
  assert (HpM : truthy p = true -> exists c, In c M /\ phoneNumber c = p).
  { intros T. destruct (Hp T) as (c & Hc & L & E). exists c. split; auto.
    apply findContacts_In. split; auto. apply matches_true. auto. }
  pose proof (determineNewInfo_covered M e p HeM HpM) as Hn.
  destruct M as [|c0 l0] eqn:EM.
  - exfalso. destruct Hsome as [T|T];
      [destruct (HeM T) as (c & [] & _) | destruct (HpM T) as (c & [] & _)].
  - assert (H0 : In c0 M) by (rewrite EM; simpl; auto).
    rewrite <- EM in *. clearbody M.
    unfold analyzeContacts in *.
    destruct (match find _ M, find _ M with
              | Some a, Some b => if (id a =? id b)%Z then Some a else None
              | _, _ => None
              end) as [a|].
    + cbn [executeConsolidation].
      destruct (read_id (findPrimaryInChain a M)); reflexivity.
    + destruct (filter is_primary M) as [|a [|b t]] eqn:FP.
      * destruct (filter is_secondary M) as [|s t] eqn:FS.
        -- exfalso. destruct (primary_or_secondary c0) as [P|P].
           ++ assert (In c0 (filter is_primary M)) by (apply filter_In; auto).
              rewrite FP in *. contradiction.
           ++ assert (In c0 (filter is_secondary M)) by (apply filter_In; auto).
              rewrite FS in *. contradiction.
        -- cbn [executeConsolidation]. unfold linkToExistingPrimary.
           rewrite Hn. reflexivity.
      * cbn [executeConsolidation]. unfold createSecondaryContact.
        rewrite Hn. reflexivity.
      * exfalso. eapply Hplan. reflexivity.
Qed.

Lemma touched_live (T : list Z) (m : Z) (c c' : Contact) :
  touched T m c c' -> live c' = live c.
Proof.
  intros H. apply touched_keys in H. unfold live.
  destruct H as (_ & _ & _ & ->). reflexivity.
Qed.

Lemma touched_matches (T : list Z) (m : Z) (e p : option string) (c c' : Contact) :
  touched T m c c' -> matches e p c' = matches e p c.
Proof.
  intros H. unfold matches, email_is, phone_is.
  rewrite (touched_live _ _ _ _ H).
  apply touched_keys in H. destruct H as (-> & -> & _). reflexivity.
Qed.

(** After the two loops of a merge, the only matched row that is still a
    primary is the retained one. *)
Lemma merged_primaries_are_main (db db1 : Database) (e p : option string)
    (mainPrimary : Contact) (c' : Contact) :
  let M := findContactsByEmailOrPhone db e p in
  Forall2 (touched (merge_targets mainPrimary (filter is_primary M)
                                  (filter is_secondary M))
                   (id mainPrimary))
          (rows db) (rows db1) ->
  In c' (findContactsByEmailOrPhone db1 e p) ->
  is_primary c' = true ->
  id c' = id mainPrimary.
Proof.
  intros M HT Hc' P. apply findContacts_In in Hc'. destruct Hc' as [Hc' Mc'].
  destruct (touched_In_inv _ _ _ _ _ HT Hc') as (c & Hc & Tc).
  rewrite (touched_matches _ _ e p _ _ Tc) in Mc'.
  rewrite (touched_id _ _ _ _ Tc).
  destruct (Z.eq_dec (id c) (id mainPrimary)) as [E|E]; [exact E|exfalso].
  destruct Tc as [T1 T2].
  assert (HM : In c M) by (apply findContacts_In; auto).
  destruct (in_dec Z.eq_dec (id c)
              (merge_targets mainPrimary (filter is_primary M)
                             (filter is_secondary M))) as [I|I].
  - destruct (T1 I) as [now ->]. discriminate P.
  - rewrite (T2 I) in P. apply I. unfold merge_targets.
    apply in_or_app. left. apply in_map, filter_In. split.
    + apply filter_In. auto.
    + apply negb_true_iff. now apply Z.eqb_neq.
Qed.

(* ------------------------------------------------------------------ *)
(** ** The order of the match set *)

Lemma sorted_ids_NoDup (l : list Z) : StronglySorted Z.lt l -> NoDup l.
Proof.
  induction 1 as [|x l _ IH H]; constructor; auto.
  intros Hin. rewrite Forall_forall in H. specialize (H x Hin). lia.
Qed.

Lemma insert_row_not_later (x : Contact) (s : list Contact) :
  StronglySorted not_later s ->
  StronglySorted not_later (insert_row by_createdAt x s).
Proof.
  induction 1 as [|y s Hs IH Hy]; simpl.
  - repeat constructor.
  - rewrite Forall_forall in Hy. unfold by_createdAt at 1.
    destruct (Z.leb_spec (createdAt x) (createdAt y)) as [L|L].
    + constructor; [constructor; auto; now apply Forall_forall|].
      apply Forall_forall. intros z [<-|Hz]; [exact L|].
      specialize (Hy z Hz). unfold not_later in *. lia.
    + constructor; [exact IH|].
      apply Forall_forall. intros z Hz. apply insert_row_In in Hz.
      destruct Hz as [<-|Hz]; [unfold not_later; lia | auto].
Qed.

(** [ORDER BY createdAt ASC] lists the rows by ascending [createdAt]. *)
Lemma order_by_createdAt_sorted (l : list Contact) :
  StronglySorted not_later (order_by by_createdAt l).
Proof.
  induction l as [|x t IH]; simpl; [constructor|].
  now apply insert_row_not_later.
Qed.

Lemma filter_not_later (P : Contact -> bool) (l : list Contact) :
  StronglySorted not_later l -> StronglySorted not_later (filter P l).
Proof.
  induction 1 as [|x l _ IH Hx]; simpl; [constructor|].
  destruct (P x); [|auto]. constructor; [auto|].
  rewrite Forall_forall in *. intros y Hy. apply Hx.
  apply filter_In in Hy. apply Hy.
Qed.

Lemma findContacts_sorted (db : Database) (e p : option string) :
  StronglySorted not_later (findContactsByEmailOrPhone db e p).
Proof.
  unfold findContactsByEmailOrPhone.
  destruct (negb (truthy e) && negb (truthy p)); [constructor|].
  apply order_by_createdAt_sorted.
Qed.

Lemma getLinkedContacts_In (db : Database) (pid : option Z) (c : Contact) :
  In c (getLinkedContacts db pid) <-> In c (rows db) /\ in_group pid c = true.
Proof.
  unfold getLinkedContacts, in_group.
  rewrite order_by_In, filter_In, index_or_In, andb_true_iff. tauto.
Qed.

Lemma insert_row_primary_last (x : Contact) (s : list Contact) :
  StronglySorted primary_last s ->
  StronglySorted primary_last (insert_row by_precedence_desc_createdAt x s).
Proof.
  induction 1 as [|y s Hs IH Hy]; simpl.
  - repeat constructor.
  - rewrite Forall_forall in Hy.
    destruct (by_precedence_desc_createdAt x y) eqn:L.
    + constructor; [constructor; auto; now apply Forall_forall|].
      apply Forall_forall. intros z Hz Px.
      assert (Py : linkPrecedence y = primary).
      { unfold by_precedence_desc_createdAt in L. rewrite Px in L.
        destruct (linkPrecedence y); [reflexivity | discriminate L]. }
      destruct Hz as [<-|Hz]; [exact Py | now apply (Hy z Hz)].
    + constructor; [exact IH|].
      apply Forall_forall. intros z Hz Py. apply insert_row_In in Hz.
      destruct Hz as [<-|Hz]; [|now apply (Hy z Hz)].
      unfold by_precedence_desc_createdAt in L. rewrite Py in L.
      destruct (linkPrecedence x); [reflexivity | discriminate L].
Qed.

(** [ORDER BY linkPrecedence DESC] puts every secondary before every
    primary. *)
Lemma getLinkedContacts_primary_last (db : Database) (pid : option Z) :
  StronglySorted primary_last (getLinkedContacts db pid).
Proof.
  unfold getLinkedContacts.
  induction (filter live (index_or (id_is pid) (linkedId_is pid) (rows db)))
    as [|x t IH]; simpl; [constructor|].
  now apply insert_row_primary_last.
Qed.

(** The reduction keeps its first element when no later one is read as a
    strictly older date. *)
Lemma oldest_of_first (clock : Clock) (first : Contact) (rest : list Contact) :
  Forall (fun q => date_of clock (createdAt first) <= date_of clock (createdAt q))
         rest ->
  oldest_of clock first rest = first.
Proof.
  unfold oldest_of. induction 1 as [|x t Hx _ IH]; simpl; [reflexivity|].
  destruct (Z.ltb_spec (date_of clock (createdAt x))
                       (date_of clock (createdAt first))); [lia | exact IH].
Qed.

(* ------------------------------------------------------------------ *)
(** ** The invariant of the stores the service builds *)

Lemma store_invariant_NoDup (db : Database) :
  store_invariant db -> NoDup (map id (rows db)).
Proof. intros I. apply sorted_ids_NoDup, I. Qed.

Lemma store_invariant_live (db : Database) (c : Contact) :
  store_invariant db -> In c (rows db) -> live c = true.
Proof. intros I H. unfold live. now rewrite (inv_live _ I c H). Qed.

Lemma store_invariant_empty : store_invariant empty_db.
Proof. split; simpl; try tauto. constructor. Qed.

Lemma sorted_snoc (l : list Z) (x : Z) :
  StronglySorted Z.lt l -> (forall y, In y l -> y < x) ->
  StronglySorted Z.lt (l ++ [x]).
Proof.
  induction 1 as [|a l Hl IH Ha]; intros Hx; simpl.
  - repeat constructor.
  - constructor.
    + apply IH. intros y Hy. apply Hx. simpl; auto.
    + rewrite Forall_forall in *. intros y Hy. apply in_app_or in Hy.
      destruct Hy as [Hy|[<-|[]]]; [auto | apply Hx; simpl; auto].
Qed.

(** Appending a row with the next key and values no row holds yet. *)
Lemma store_invariant_append (db db' : Database) (row : Contact) :
  store_invariant db ->
  rows db' = (rows db ++ [row])%list ->
  id row = next_id db ->
  deletedAt row = None ->
  (forall s c, email row = Some s -> s <> "" -> In c (rows db) ->
               email c <> Some s) ->
  (forall s c, phoneNumber row = Some s -> s <> "" -> In c (rows db) ->
               phoneNumber c <> Some s) ->
  (forall s, phoneNumber row = Some s -> s <> "" -> ten_digits s = true) ->
  store_invariant db'.
Proof.
  intros I R Hid Hd He Hp Hv.
  assert (Hin : forall c, In c (rows db') <-> In c (rows db) \/ c = row).
  { intros c. rewrite R, in_app_iff. simpl. intuition. }
  split.
  - rewrite R, map_app. simpl. apply sorted_snoc; [apply I|].
    intros y Hy. apply in_map_iff in Hy. destruct Hy as (c & <- & Hc).
    rewrite Hid. now apply next_id_fresh.
  - intros c Hc. apply Hin in Hc. destruct Hc as [Hc| ->]; [now apply I | auto].
  - intros c1 c2 s H1 H2 E1 E2 Hs. apply Hin in H1, H2.
    destruct H1 as [H1| ->], H2 as [H2| ->]; auto.
    + eapply (inv_emails _ I); eauto.
    + exfalso. eapply He; eauto.
    + exfalso. eapply He; eauto.
  - intros c1 c2 s H1 H2 E1 E2 Hs. apply Hin in H1, H2.
    destruct H1 as [H1| ->], H2 as [H2| ->]; auto.
    + eapply (inv_phones _ I); eauto.
    + exfalso. eapply Hp; eauto.
    + exfalso. eapply Hp; eauto.
  - intros c s Hc E Hs. apply Hin in Hc. destruct Hc as [Hc| ->].
    + eapply (inv_digits _ I); eauto.
    + eauto.
Qed.

(** Link updates keep the invariant: they touch neither keys nor values. *)
Lemma store_invariant_touched (T : list Z) (m : Z) (db db' : Database) :
  store_invariant db ->
  Forall2 (touched T m) (rows db) (rows db') ->
  store_invariant db'.
Proof.
  intros I HT.
  assert (Hpre : forall c', In c' (rows db') ->
            exists c, In c (rows db) /\ id c' = id c /\ email c' = email c
                      /\ phoneNumber c' = phoneNumber c
                      /\ deletedAt c' = deletedAt c).
  { intros c' Hc'. destruct (touched_In_inv _ _ _ _ _ HT Hc') as (c & Hc & Tc).
    exists c. pose proof (touched_id _ _ _ _ Tc).
    apply touched_keys in Tc. tauto. }
  split.
  - rewrite (touched_map_id _ _ _ _ HT). apply I.
  - intros c' Hc'. destruct (Hpre c' Hc') as (c & Hc & _ & _ & _ & ->).
    now apply I.
  - intros c1' c2' s H1 H2 E1 E2 Hs.
    destruct (Hpre c1' H1) as (c1 & Hc1 & -> & Em1 & _).
    destruct (Hpre c2' H2) as (c2 & Hc2 & -> & Em2 & _).
    eapply (inv_emails _ I); eauto; congruence.
  - intros c1' c2' s H1 H2 E1 E2 Hs.
    destruct (Hpre c1' H1) as (c1 & Hc1 & -> & _ & Ph1 & _).
    destruct (Hpre c2' H2) as (c2 & Hc2 & -> & _ & Ph2 & _).
    eapply (inv_phones _ I); eauto; congruence.
  - intros c' s Hc' E Hs.
    destruct (Hpre c' Hc') as (c & Hc & _ & _ & Ph & _).
    eapply (inv_digits _ I); eauto; congruence.
Qed.

Lemma needsEmail_fresh (l : list Contact) (e p : option string) :
  needsEmail (determineNewInfo l e p) = true ->
  truthy e = true /\ forall c, In c l -> email c <> e.
Proof.
  simpl. rewrite andb_true_iff, negb_true_iff, includes_false. intros [T N].
  split; [exact T|]. intros c Hc E. apply N.
  apply truthy_Some in T. destruct T as (s & -> & Hs). simpl.
  apply filter_Boolean_In. split; [|exact Hs]. rewrite <- E. now apply in_map.
Qed.

Lemma needsPhone_fresh (l : list Contact) (e p : option string) :
  needsPhone (determineNewInfo l e p) = true ->
  truthy p = true /\ forall c, In c l -> phoneNumber c <> p.
Proof.
  simpl. rewrite andb_true_iff, negb_true_iff, includes_false. intros [T N].
  split; [exact T|]. intros c Hc E. apply N.
  apply truthy_Some in T. destruct T as (s & -> & Hs). simpl.
  apply filter_Boolean_In. split; [|exact Hs]. rewrite <- E. now apply in_map.
Qed.

(** The secondary created for missing information keeps the invariant, when
    "missing" was judged on a list that covers the match set of a store
    with the same values. *)
Lemma store_invariant_attach (clock : Clock) (db0 db : Database)
    (pid : option Z) (l : list Contact) (e p : option string) :
  store_invariant db0 ->
  store_invariant db ->
  (forall c, In c (rows db) ->
     exists c0, In c0 (rows db0) /\ email c0 = email c
                /\ phoneNumber c0 = phoneNumber c) ->
  (forall c, In c (findContactsByEmailOrPhone db0 e p) -> In c l) ->
  (truthy p = true -> ten_digits (param_text p) = true) ->
  store_invariant (snd (attach clock db pid (determineNewInfo l e p) e p)).
Proof.
  intros I0 I Hpre Hl Hv. rewrite attach_db.
  set (n := determineNewInfo l e p).
  destruct (needsEmail n || needsPhone n); [|exact I].
  eapply store_invariant_append; [exact I | reflexivity | reflexivity
                                  | reflexivity | | | ]; cbn [email phoneNumber].
  - intros s c E Hs Hc Ec. destruct (needsEmail n) eqn:N; [|discriminate].
    apply needsEmail_fresh in N. destruct N as [T N].
    destruct (Hpre c Hc) as (c0 & Hc0 & E0 & _).
    apply (N c0); [|congruence].
    apply Hl, findContacts_In. split; [exact Hc0|].
    apply matches_true. split; [now apply (store_invariant_live db0)|].
    left. split; [exact T | congruence].
  - intros s c E Hs Hc Ec. destruct (needsPhone n) eqn:N; [|discriminate].
    apply needsPhone_fresh in N. destruct N as [T N].
    destruct (Hpre c Hc) as (c0 & Hc0 & _ & E0).
    apply (N c0); [|congruence].
    apply Hl, findContacts_In. split; [exact Hc0|].
    apply matches_true. split; [now apply (store_invariant_live db0)|].
    right. split; [exact T | congruence].
  - intros s E Hs. destruct (needsPhone n); [|discriminate].
    subst p. apply Hv. simpl. apply negb_true_iff.
    now apply String.eqb_neq.
Qed.

Lemma analyzeContacts_needs (l : list Contact) (e p : option string) :
  match analyzeContacts l e p with
  | create_secondary _ n | link_to_existing_primary _ n =>
      n = determineNewInfo l e p
  | create_new_primary => l = []
  | _ => True
  end.
Proof.
  unfold analyzeContacts.
  destruct (match find _ l, find _ l with
            | Some a, Some b => if (id a =? id b)%Z then Some a else None
            | _, _ => None
            end); [exact I|].
  destruct (filter is_primary l) as [|a [|b t]] eqn:FP; try reflexivity.
  destruct (filter is_secondary l) as [|s t] eqn:FS; [|reflexivity].
  destruct l as [|c0 l0]; [reflexivity|exfalso].
  destruct (primary_or_secondary c0) as [P|P].
  - assert (H : In c0 (filter is_primary (c0 :: l0)))
      by (apply filter_In; simpl; auto).
    rewrite FP in H. contradiction.
  - assert (H : In c0 (filter is_secondary (c0 :: l0)))
      by (apply filter_In; simpl; auto).
    rewrite FS in H. contradiction.
Qed.

Lemma identify_preserves_invariant (clock : Clock) (db : Database)
    (e p : option string) :
  store_invariant db -> store_invariant (snd (identifyContact clock db e p)).
Proof.
  intros I. unfold identifyContact.
  destruct (truthy p && negb (ten_digits (param_text p))) eqn:G; [exact I|].
  assert (Hv : truthy p = true -> ten_digits (param_text p) = true).
  { intros T. rewrite T in G. simpl in G. now apply negb_false_iff in G. }
  assert (Hsame : forall c, In c (rows db) ->
            exists c0, In c0 (rows db) /\ email c0 = email c
                       /\ phoneNumber c0 = phoneNumber c) by eauto.
  remember (findContactsByEmailOrPhone db e p) as M eqn:EM.
  destruct M as [|c0 l0].
  - assert (Hno : forall c, In c (rows db) -> matches e p c = false).
    { intros c Hc. destruct (matches e p c) eqn:Mc; [exfalso|reflexivity].
      assert (H : In c (findContactsByEmailOrPhone db e p))
        by (apply findContacts_In; auto).
      rewrite <- EM in H. contradiction. }
    rewrite createNewPrimaryContact_spec. cbn [snd].
    eapply store_invariant_append; [exact I | reflexivity | reflexivity
                                    | reflexivity | | | ];
      cbn [email phoneNumber].
    + intros s c E Hs Hc Ec. specialize (Hno c Hc).
      assert (Mc : matches e p c = true); [|congruence].
      apply matches_true. split; [now apply (store_invariant_live db)|].
      left. split; [|congruence]. subst e. simpl.
      now apply negb_true_iff, String.eqb_neq.
    + intros s c E Hs Hc Ec. specialize (Hno c Hc).
      assert (Mc : matches e p c = true); [|congruence].
      apply matches_true. split; [now apply (store_invariant_live db)|].
      right. split; [|congruence]. subst p. simpl.
      now apply negb_true_iff, String.eqb_neq.
    + intros s E Hs. subst p. apply Hv. simpl.
      now apply negb_true_iff, String.eqb_neq.
  - cbv iota. rewrite EM. assert (Hne : findContactsByEmailOrPhone db e p <> [])
      by (rewrite <- EM; discriminate).
    clear EM c0 l0. set (M := findContactsByEmailOrPhone db e p) in *.
    pose proof (analyzeContacts_needs M e p) as Hn.
    destruct (analyzeContacts M e p) as [pc|ps ss|pc n|pid n|] eqn:PL;
      cbn [executeConsolidation].
    + destruct (read_id pc); exact I.
    + destruct ps as [|first rest]; [exact I|].
      pose proof (analyzeContacts_merge _ _ _ _ _ PL) as (Eps & Ess & _).
      destruct (mergePrimaryContacts_spec clock db first rest ss e p)
        as (dbm & HT & _ & Hrun).
      rewrite Hrun. cbn [snd].
      apply (store_invariant_attach clock db dbm); auto.
      * eapply store_invariant_touched; eauto.
      * intros c' Hc'. destruct (touched_In_inv _ _ _ _ _ HT Hc') as (c & Hc & Tc).
        exists c. apply touched_keys in Tc. destruct Tc as (-> & -> & _). auto.
      * intros c Hc. fold M in Hc.
        apply in_or_app. rewrite Eps, Ess.
        destruct (primary_or_secondary c); [left|right]; apply filter_In; auto.
    + subst n. unfold createSecondaryContact.
      apply (store_invariant_attach clock db db); auto.
    + subst n. unfold linkToExistingPrimary.
      apply (store_invariant_attach clock db db); auto.
    + contradiction.
Qed.

Lemma reachable_invariant (clock : Clock) (db : Database) :
  reachable clock db -> store_invariant db.
Proof.
  induction 1 as [|db e p _ IH].
  - apply store_invariant_empty.
  - now apply identify_preserves_invariant.
Qed.

(* ------------------------------------------------------------------ *)
(** ** Primary collisions on the stores the service builds *)

Lemma two_primaries (l : list Contact) :
  NoDup (map id l) ->
  (2 <= List.length (filter is_primary l))%nat ->
  exists a b, In a l /\ In b l /\ id a <> id b.
Proof.
  intros ND L. pose proof (filter_NoDup_ids is_primary l ND) as NDf.
  destruct (filter is_primary l) as [|a [|b t]] eqn:F; simpl in L; try lia.
  assert (Ha : In a (filter is_primary l)) by (rewrite F; simpl; auto).
  assert (Hb : In b (filter is_primary l)) by (rewrite F; simpl; auto).
  apply filter_In in Ha, Hb. exists a, b. repeat split; try tauto.
  simpl in NDf. inversion NDf as [|? ? Hn _]; subst.
  intros E. apply Hn. simpl. auto.
Qed.

(** In a store with the invariant, a row holding both supplied values is the
    whole match set. *)
Lemma exact_row_is_match_set (db : Database) (e p : option string) (x c : Contact) :
  store_invariant db ->
  In x (rows db) -> email x = e -> phoneNumber x = p ->
  In c (findContactsByEmailOrPhone db e p) ->
  id c = id x.
Proof.
  intros I Hx Ee Ep Hc. apply findContacts_In in Hc. destruct Hc as [Hc Mc].
  apply matches_true in Mc. destruct Mc as [_ [[T E]|[T E]]];
    apply truthy_Some in T; destruct T as (s & Es & Hs).
  - eapply (inv_emails _ I); eauto; congruence.
  - eapply (inv_phones _ I); eauto; congruence.
Qed.

(** In a store with the invariant, a call that matches two primaries has
    passed the phone check and is not an exact duplicate: its plan is the
    merge. *)
Lemma collision_plan (db : Database) (e p : option string) :
  store_invariant db ->
  let M := findContactsByEmailOrPhone db e p in
  (2 <= List.length (filter is_primary M))%nat ->
  (truthy p = true -> ten_digits (param_text p) = true)
  /\ analyzeContacts M e p
     = merge_primaries (filter is_primary M) (filter is_secondary M).
Proof.
  intros I M L.
  pose proof (store_invariant_NoDup _ I) as ND.
  destruct (two_primaries M (findContacts_NoDup_ids db e p ND) L)
    as (a & b & Ha & Hb & Hab).
  split.
  - intros T.
    assert (Hex : exists c, In c (rows db) /\ phoneNumber c = p).
    { apply findContacts_In in Ha, Hb.
      destruct Ha as [Ha Ma], Hb as [Hb Mb]. apply matches_true in Ma, Mb.
      destruct Ma as [_ [[Ta Ea]|[_ Ea]]]; [|eauto].
      destruct Mb as [_ [[Tb Eb]|[_ Eb]]]; [|eauto].
      exfalso. apply Hab. apply truthy_Some in Ta. destruct Ta as (s & Es & Hs).
      eapply (inv_emails _ I); eauto; congruence. }
    destruct Hex as (c & Hc & E). apply truthy_Some in T.
    destruct T as (s & -> & Hs). simpl. eapply (inv_digits _ I); eauto.
  - unfold analyzeContacts. fold M.
    destruct (find (fun c => strict_eq (email c) e) M) as [x|] eqn:Fx;
      [destruct (find (fun c => strict_eq (phoneNumber c) p) M) as [y|] eqn:Fy|].
    + destruct (Z.eqb_spec (id x) (id y)) as [E|E].
      * exfalso. apply find_some in Fx, Fy.
        destruct Fx as [Hx Ex], Fy as [Hy Ey].
        apply strict_eq_true in Ex, Ey.
        assert (Hx' : In x (rows db)) by (apply findContacts_In in Hx; tauto).
        assert (Hy' : In y (rows db)) by (apply findContacts_In in Hy; tauto).
        assert (x = y) by (eapply NoDup_ids_eq; eauto). subst y.
        apply Hab.
        rewrite (exact_row_is_match_set db e p x a I Hx' Ex Ey Ha).
        rewrite (exact_row_is_match_set db e p x b I Hx' Ex Ey Hb).
        reflexivity.
      * destruct (filter is_primary M) as [|a' [|b' t]]; simpl in L; try lia.
        reflexivity.
    + destruct (filter is_primary M) as [|a' [|b' t]]; simpl in L; try lia.
      reflexivity.
    + destruct (filter is_primary M) as [|a' [|b' t]]; simpl in L; try lia.
      reflexivity.
Qed.

(* ------------------------------------------------------------------ *)
(** ** Properties of [identifyContact]

    One theorem per property; a property the code does not have is shown
    by running the code on a recorded session. *)

(** C1 (the claim fails in four ways).
    - A tie.  [tied2] holds two primaries created in the same second.  The
      observation made of the email of row 2 and the phone of row 1 finds
      row 2 first (the email match) and retains it, demoting row 1, the
      lower id; the observation made of the email of row 1 and the phone of
      row 2 retains row 1.
    - An exact duplicate.  [raced2] holds two primaries with one email.  The
      observation that repeats row 1 matches both, is answered from row 1
      before the collision is looked at, and writes nothing: row 2 stays a
      primary.
    - A refused phone.  [seeded] holds the sample contacts of the setup
      script, whose phones are not ten digits.  The observation made of the
      email of row 2 and the phone of row 1 matches both primaries and is
      refused by the phone check: nothing is merged.
    - A daylight-saving gap.  In [gap2] row 1 was created at 02:30:00 and
      row 2 at 03:10:00.  The host reads the first as 07:30:00 UTC and the
      second as 07:10:00 UTC, so the merge retains row 2 and demotes row 1,
      the one created forty minutes earlier. *)
Lemma merge_retention_counterexamples :
  (map (fun c => (id c, linkPrecedence c, createdAt c)) (rows tied2)
   = [(1, primary, 1000); (2, primary, 1000)]
   /\ map id (filter is_primary
                (findContactsByEmailOrPhone tied2 (Some "b@x.com") (Some "1111111111")))
      = [2; 1]
   /\ fst (identifyContact same_second tied2 (Some "b@x.com") (Some "1111111111"))
      = inr (mkView (Some 2) ["a@x.com"; "b@x.com"] ["1111111111"; "2222222222"] [1])
   /\ get_by_id
        (snd (identifyContact same_second tied2 (Some "b@x.com") (Some "1111111111")))
        1
      = Some (mkContact 1 (Some "1111111111") (Some "a@x.com") (Some 2) secondary
                        1000 1000 None)
   /\ fst (identifyContact same_second tied2 (Some "a@x.com") (Some "2222222222"))
      = inr (mkView (Some 1) ["b@x.com"; "a@x.com"] ["2222222222"; "1111111111"] [2]))
  /\ (map (fun c => (id c, email c, linkPrecedence c)) (rows raced2)
      = [(1, Some "a@x.com", primary); (2, Some "a@x.com", primary)]
      /\ map id (filter is_primary
                   (findContactsByEmailOrPhone raced2 (Some "a@x.com") (Some "1111111111")))
         = [1; 2]
      /\ identifyContact tick_clock raced2 (Some "a@x.com") (Some "1111111111")
         = (inr (mkView (Some 1) ["a@x.com"] ["1111111111"] []), raced2))
  /\ (map (fun c => (id c, phoneNumber c, linkPrecedence c)) (rows seeded)
      = [(1, Some "555-0101", primary); (2, Some "555-0102", primary);
         (3, Some "555-0103", primary)]
      /\ map id (filter is_primary
                   (findContactsByEmailOrPhone seeded
                      (Some "emmett@zamazon.com") (Some "555-0101")))
         = [1; 2]
      /\ identifyContact tick_clock seeded (Some "emmett@zamazon.com") (Some "555-0101")
         = (inl invalid_phone_error, seeded))
  /\ (map (fun c => (id c, linkPrecedence c, createdAt c)) (rows gap2)
      = [(1, primary, 9000); (2, primary, 11400)]
      /\ map id (filter is_primary
                   (findContactsByEmailOrPhone gap2 (Some "a@x.com") (Some "2222222222")))
         = [1; 2]
      /\ (date_of spring_forward 9000, date_of spring_forward 11400) = (27000, 25800)
      /\ fst (identifyContact spring_forward gap2 (Some "a@x.com") (Some "2222222222"))
         = inr (mkView (Some 2) ["a@x.com"; "b@x.com"] ["1111111111"; "2222222222"] [1])
      /\ get_by_id
           (snd (identifyContact spring_forward gap2 (Some "a@x.com") (Some "2222222222")))
           1
         = Some (mkContact 1 (Some "1111111111") (Some "a@x.com") (Some 2) secondary
                           9000 11400 None)).
Proof. repeat split; reflexivity. Qed.

(** C1 (as amended).  Take a store with unique keys and a call that passes
    the phone check, whose match set holds two or more primaries, that is
    not answered as an exact duplicate (the first matched contact with the
    observed email and the first with the observed phone are not one row),
    and for which the host reads the creation times of the colliding
    primaries in their stored order, as a host in UTC always does.  The call
    is answered by a merge.  The retained primary is the colliding primary
    the match query returned first; no colliding primary was created before
    it, so a colliding primary that is strictly the earliest is the one
    retained, whichever observation found the collision.  The returned view
    names it, its record stays a primary, unchanged, and every other
    colliding primary is rewritten with precedence [secondary] and
    [linkedId] the retained primary's id. *)
Theorem identify_merge_retains_earliest_created (clock : Clock) (db : Database)
    (e p : option string) :
  NoDup (map id (rows db)) ->
  (truthy p = true -> ten_digits (param_text p) = true) ->
  let M := findContactsByEmailOrPhone db e p in
  let colliding := filter is_primary M in
  (2 <= List.length colliding)%nat ->
  (forall x y,
     find (fun c => strict_eq (email c) e) M = Some x ->
     find (fun c => strict_eq (phoneNumber c) p) M = Some y ->
     id x <> id y) ->
  (forall a b, In a colliding -> In b colliding ->
     createdAt a <= createdAt b ->
     date_of clock (createdAt a) <= date_of clock (createdAt b)) ->
  exists mainPrimary others view db',
    colliding = mainPrimary :: others
    /\ identifyContact clock db e p = (inr view, db')
    /\ primaryContactId view = Some (id mainPrimary)
    /\ (forall q, In q others -> createdAt mainPrimary <= createdAt q)
    /\ (forall a, In a colliding ->
          (forall q, In q colliding -> q <> a -> createdAt a < createdAt q) ->
          mainPrimary = a)
    /\ get_by_id db' (id mainPrimary) = Some mainPrimary
    /\ (forall q, In q others ->
          exists now,
            get_by_id db' (id q)
            = Some (set_link (Some (id mainPrimary)) secondary now q)).
Proof.
  intros ND Hv M colliding L Hexact Hread.
  assert (PL : analyzeContacts M e p
               = merge_primaries colliding (filter is_secondary M)).
  { unfold analyzeContacts. fold colliding.
    destruct (find (fun c => strict_eq (email c) e) M) as [x|] eqn:Fx;
      [destruct (find (fun c => strict_eq (phoneNumber c) p) M) as [y|] eqn:Fy|].
    - destruct (Z.eqb_spec (id x) (id y)) as [E|E].
      + exfalso. exact (Hexact x y eq_refl eq_refl E).
      + destruct colliding as [|a' [|b' t]]; simpl in L; try lia. reflexivity.
    - destruct colliding as [|a' [|b' t]]; simpl in L; try lia. reflexivity.
    - destruct colliding as [|a' [|b' t]]; simpl in L; try lia. reflexivity. }
  assert (Hsorted : StronglySorted not_later colliding).
  { apply filter_not_later, findContacts_sorted. }
  assert (NDc : NoDup (map id colliding)).
  { now apply filter_NoDup_ids, findContacts_NoDup_ids. }
  assert (Hps : forall c, In c colliding -> In c (rows db) /\ linkPrecedence c = primary).
  { intros c Hc. apply filter_In in Hc. destruct Hc as [Hc P].
    split; [apply findContacts_In in Hc; tauto | now apply is_primary_true]. }
  assert (Hss : forall c, In c (filter is_secondary M) ->
                          In c (rows db) /\ linkPrecedence c = secondary).
  { intros c Hc. apply filter_In in Hc. destruct Hc as [Hc P].
    split; [apply findContacts_In in Hc; tauto | now apply is_secondary_true]. }
  destruct colliding as [|first rest] eqn:EC; [simpl in L; lia|].
  inversion Hsorted as [|? ? _ Hfirst]; subst.
  rewrite Forall_forall in Hfirst.
  assert (Hmain : oldest_of clock first rest = first).
  { apply oldest_of_first, Forall_forall. intros q Hq.
    apply Hread; [simpl; auto | simpl; auto | apply Hfirst, Hq]. }
  destruct (mergePrimaryContacts_effect clock db first rest
              (filter is_secondary M) e p ND Hps Hss)
    as (db' & Hrun & Hkeep & _ & _ & Hdemote & _).
  rewrite Hmain in *.
  assert (Hother : forall q, In q rest -> id q <> id first /\ q <> first).
  { intros q Hq. simpl in NDc. inversion NDc as [|? ? Hn _]; subst.
    assert (id q <> id first).
    { intros E. apply Hn. rewrite <- E. now apply in_map. }
    split; [assumption | congruence]. }
  exists first, rest, (buildResponse db' (Some (id first))), db'. repeat split.
  - unfold identifyContact.
    destruct (truthy p && negb (ten_digits (param_text p))) eqn:G.
    { apply andb_true_iff in G. destruct G as [T G].
      rewrite (Hv T) in G. discriminate. }
    fold M. destruct M as [|c0 l0] eqn:EM; [discriminate EC|].
    rewrite PL. exact Hrun.
  - exact Hfirst.
  - intros a [<-|Ha] Hmin; [reflexivity|exfalso].
    destruct (Hother a Ha) as [_ Hne].
    assert (createdAt a < createdAt first)
      by (apply Hmin; [simpl; auto | congruence]).
    specialize (Hfirst a Ha). unfold not_later in Hfirst. lia.
  - exact Hkeep.
  - intros q Hq. apply Hdemote; [simpl; auto | apply Hother, Hq].
Qed.

(** The merge theorem at the third call of the recorded session. *)
Lemma identify_merge_retains_earliest_created_witness :
  exists mainPrimary others view db',
    filter is_primary
      (findContactsByEmailOrPhone session2 (Some "a@x.com") (Some "2222222222"))
    = mainPrimary :: others
    /\ identifyContact tick_clock session2 (Some "a@x.com") (Some "2222222222")
       = (inr view, db')
    /\ primaryContactId view = Some (id mainPrimary).
Proof.
  assert (ND : NoDup (map id (rows session2))).
  { apply (NoDup_cons 1); [|apply (NoDup_cons 2); [|apply NoDup_nil]].
    - intros [H|[]]. discriminate H.
    - intros []. }
  assert (Hv : truthy (Some "2222222222") = true ->
               ten_digits (param_text (Some "2222222222")) = true).
  { intros _. reflexivity. }
  assert (L : (2 <= List.length
                 (filter is_primary
                    (findContactsByEmailOrPhone session2
                       (Some "a@x.com") (Some "2222222222"))))%nat).
  { vm_compute. apply le_n. }
  assert (Hexact : forall x y,
            find (fun c => strict_eq (email c) (Some "a@x.com"))
                 (findContactsByEmailOrPhone session2
                    (Some "a@x.com") (Some "2222222222")) = Some x ->
            find (fun c => strict_eq (phoneNumber c) (Some "2222222222"))
                 (findContactsByEmailOrPhone session2
                    (Some "a@x.com") (Some "2222222222")) = Some y ->
            id x <> id y).
  { intros x y Fx Fy. vm_compute in Fx, Fy.
    injection Fx as <-. injection Fy as <-. discriminate. }
  assert (Hread : forall a b : Contact,
            In a (filter is_primary
                    (findContactsByEmailOrPhone session2
                       (Some "a@x.com") (Some "2222222222"))) ->
            In b (filter is_primary
                    (findContactsByEmailOrPhone session2
                       (Some "a@x.com") (Some "2222222222"))) ->
            createdAt a <= createdAt b ->
            date_of tick_clock (createdAt a) <= date_of tick_clock (createdAt b)).
  { intros a b _ _ H. exact H. }
  destruct (identify_merge_retains_earliest_created tick_clock session2
              (Some "a@x.com") (Some "2222222222") ND Hv L Hexact Hread)
    as (m & o & v & d & H1 & H2 & H3 & _).
  exists m, o, v, d. auto.
Defined.

(** C2 (the code departs from the claim).  The store [session3] has flat
    links; the fourth call of the session is a primary collision between
    rows 1 and 2 and is answered by a merge; in the store it leaves, row 3
    -- a secondary of row 2 that was not in the match set -- still names
    row 2, which is now a secondary. *)
Theorem merge_strands_unmatched_secondary :
  links_flat session3 = true
  /\ analyzeContacts
       (findContactsByEmailOrPhone session3 (Some "a@x.com") (Some "2222222222"))
       (Some "a@x.com") (Some "2222222222")
     = merge_primaries
         [mkContact 1 (Some "1111111111") (Some "a@x.com") None primary 1000 1000 None;
          mkContact 2 (Some "2222222222") (Some "b@x.com") None primary 1001 1001 None]
         []
  /\ get_by_id session4 2
     = Some (mkContact 2 (Some "2222222222") (Some "b@x.com") (Some 1) secondary
                       1001 1003 None)
  /\ get_by_id session4 3
     = Some (mkContact 3 (Some "3333333333") None (Some 2) secondary 1002 1002 None)
  /\ links_flat session4 = false.
Proof. repeat split; reflexivity. Qed.

(** C3 (the code departs from the claim).  The group fetch selects the
    live rows whose id or [linkedId] is the primary id, but it sorts the
    precedence column in descending order of its text, which puts every
    secondary before the primary.  In [linked2] row 1 is the primary and
    row 2 its secondary: the fetch returns row 2 first, and the view lists
    the secondary's email before the primary's. *)
Theorem group_fetch_lists_secondary_first :
  (forall db pid c,
     In c (getLinkedContacts db pid) <-> In c (rows db) /\ in_group pid c = true)
  /\ (forall db pid, StronglySorted primary_last (getLinkedContacts db pid))
  /\ map (fun c => (id c, linkPrecedence c, email c))
         (getLinkedContacts linked2 (Some 1))
     = [(2, secondary, Some "b@x.com"); (1, primary, Some "a@x.com")]
  /\ identifyContact tick_clock linked2 (Some "a@x.com") (Some "1111111111")
     = (inr (mkView (Some 1) ["b@x.com"; "a@x.com"] ["1111111111"] [2]), linked2).
Proof.
  split; [exact getLinkedContacts_In|].
  split; [exact getLinkedContacts_primary_last|].
  split; reflexivity.
Qed.

(** C4.  A provided phone number (a non-empty string) that is not exactly
    ten decimal digits makes [identifyContact] throw the validation error
    (the [CustomError] with status 400 and code [INVALID_PHONE_NUMBER]),
    whatever the email and the database; the database is left exactly as it
    was, no statement having been issued. *)
Theorem identify_rejects_malformed_phone (clock : Clock) (db : Database)
    (e : option string) (s : string) :
  s <> "" ->
  ten_digits s = false ->
  identifyContact clock db e (Some s)
  = (inl (CustomError "Invalid phone number format" 400 "INVALID_PHONE_NUMBER"), db).
Proof.
  intros Hs Hd. unfold identifyContact. simpl.
  rewrite Hd. destruct (String.eqb_spec s ""); [contradiction | reflexivity].
Qed.

(** The rejection of the phone [abc] on a store that holds one contact. *)
Lemma identify_rejects_malformed_phone_witness :
  identifyContact tick_clock session1 (Some "x@x.com") (Some "abc")
  = (inl (CustomError "Invalid phone number format" 400 "INVALID_PHONE_NUMBER"),
     session1).
Proof.
  apply (identify_rejects_malformed_phone tick_clock session1 (Some "x@x.com") "abc").
  - discriminate.
  - reflexivity.
Defined.

(** C5 (the code departs from the claim).  Nothing in the service turns
    an empty string into null.  On the empty store the call with an
    empty-string email returns the view the call with a null email returns,
    but stores the empty string in the [email] column where the other
    stores null.  On [attached2], whose row 2 is a secondary with a null
    email, the two calls do not even return alike: [null] is strictly equal
    to the stored null and sends the call down the exact-duplicate branch,
    where it throws; the empty string is not, and the call returns the view
    of the group. *)
Theorem empty_email_is_stored_as_given :
  fst (identifyContact tick_clock empty_db (Some "") (Some "5551230000"))
  = fst (identifyContact tick_clock empty_db None (Some "5551230000"))
  /\ map email (rows (snd (identifyContact tick_clock empty_db
                             (Some "") (Some "5551230000"))))
     = [Some ""]
  /\ map email (rows (snd (identifyContact tick_clock empty_db
                             None (Some "5551230000"))))
     = [None]
  /\ fst (identifyContact tick_clock attached2 None (Some "2222222222"))
     = inl (TypeError "Cannot read properties of undefined (reading 'id')")
  /\ fst (identifyContact tick_clock attached2 (Some "") (Some "2222222222"))
     = inr (mkView (Some 1) ["a@x.com"] ["2222222222"; "1111111111"] [2]).
Proof. repeat split; reflexivity. Qed.

(** C6 (the code departs from the claim).  In [merged3] row 2 is a
    secondary of row 1 and holds both the email and the phone of the
    observation, and it is the whole match set; resolving its primary finds
    nothing in the match set and the call throws a [TypeError]. *)
Theorem exact_duplicate_of_secondary_throws :
  findContactsByEmailOrPhone merged3 (Some "b@x.com") (Some "2222222222")
  = [mkContact 2 (Some "2222222222") (Some "b@x.com") (Some 1) secondary
               1001 1002 None]
  /\ get_by_id merged3 1
     = Some (mkContact 1 (Some "1111111111") (Some "a@x.com") None primary
                       1000 1000 None)
  /\ identifyContact tick_clock merged3 (Some "b@x.com") (Some "2222222222")
     = (inl (TypeError "Cannot read properties of undefined (reading 'id')"),
        merged3).
Proof. repeat split; reflexivity. Qed.

(** C7.  When no row of the store matches the observation (and the phone,
    if provided, is well formed), [identifyContact] appends exactly one row
    to the table: a primary with a null [linkedId], a fresh id, and the
    email and phone as they were passed.  The view it returns carries that
    id, the provided email and phone only, and no secondary ids. *)
Theorem identify_no_match_creates_primary (clock : Clock) (db : Database)
    (e p : option string) :
  (truthy p = true -> ten_digits (param_text p) = true) ->
  (forall c, In c (rows db) -> matches e p c = false) ->
  let row := mkContact (next_id db) p e None primary
                       (clock (stmts db)) (clock (stmts db)) None in
  identifyContact clock db e p
  = (inr (mkView (Some (id row))
                 (if truthy e then [param_text e] else [])
                 (if truthy p then [param_text p] else [])
                 []),
     mkDatabase (rows db ++ [row]) (next_id db) (S (stmts db)))
  /\ ~ In (id row) (map id (rows db)).
Proof.
  intros Hp Hno row. split.
  - assert (G : truthy p && negb (ten_digits (param_text p)) = false).
    { destruct (truthy p); [rewrite (Hp eq_refl)|]; reflexivity. }
    assert (E : findContactsByEmailOrPhone db e p = []).
    { destruct (findContactsByEmailOrPhone db e p) as [|c l] eqn:F; [reflexivity|].
      assert (H : In c (findContactsByEmailOrPhone db e p))
        by (rewrite F; simpl; auto).
      apply findContacts_In in H. destruct H as [H M].
      rewrite (Hno c H) in M. discriminate. }
    unfold identifyContact. rewrite G, E.
    apply createNewPrimaryContact_spec.
  - rewrite in_map_iff. intros (c & E & Hc).
    apply next_id_fresh in Hc. subst row; simpl in E. lia.
Qed.

(** The second call of the recorded session matches nothing. *)
Lemma identify_no_match_creates_primary_witness :
  identifyContact tick_clock session1 (Some "b@x.com") (Some "2222222222")
  = (inr (mkView (Some 2) ["b@x.com"] ["2222222222"] []),
     mkDatabase
       (rows session1
        ++ [mkContact 2 (Some "2222222222") (Some "b@x.com") None primary
                      1001 1001 None])
       2 2)
  /\ ~ In 2 (map id (rows session1)).
Proof.
  apply (identify_no_match_creates_primary tick_clock session1
           (Some "b@x.com") (Some "2222222222")).
  - reflexivity.
  - intros c [<-|[]]. reflexivity.
Defined.

(** C8.  Suppose every supplied (non-empty) value of the observation is
    already held by a live member of one group [g] of a store with unique
    keys, and at least one value is supplied.  Then the first call creates
    no contact (the table keeps exactly its rows, by id), the second call
    with the same input changes nothing at all -- so every group has the
    same number of members after it as before it -- and when the match set
    holds at most one primary the first call changes nothing either. *)
Theorem identify_twice_no_new_information (clock : Clock) (db : Database)
    (e p : option string) (g : Z) :
  NoDup (map id (rows db)) ->
  truthy e = true \/ truthy p = true ->
  held_in_group db g email e ->
  held_in_group db g phoneNumber p ->
  let db1 := snd (identifyContact clock db e p) in
  let db2 := snd (identifyContact clock db1 e p) in
  map id (rows db1) = map id (rows db)
  /\ db2 = db1
  /\ (forall g', List.length (getLinkedContacts db2 g')
                 = List.length (getLinkedContacts db1 g'))
  /\ ((List.length (filter is_primary (findContactsByEmailOrPhone db e p)) <= 1)%nat ->
      db1 = db).
Proof.
  intros ND Hsome He Hp db1 db2.
  assert (He0 : truthy e = true ->
                exists c, In c (rows db) /\ live c = true /\ email c = e).
  { intros T. destruct (He T) as (c & Hc & G & E). exists c. repeat split; auto.
    unfold in_group in G. now apply andb_true_iff in G. }
  assert (Hp0 : truthy p = true ->
                exists c, In c (rows db) /\ live c = true /\ phoneNumber c = p).
  { intros T. destruct (Hp T) as (c & Hc & G & E). exists c. repeat split; auto.
    unfold in_group in G. now apply andb_true_iff in G. }
  assert (Hquiet : (forall ps ss,
                      analyzeContacts (findContactsByEmailOrPhone db e p) e p
                      <> merge_primaries ps ss) -> db1 = db).
  { intros H. now apply identify_writes_nothing. }
  assert (Hlast : (List.length (filter is_primary
                     (findContactsByEmailOrPhone db e p)) <= 1)%nat -> db1 = db).
  { intros L. apply Hquiet. intros ps ss PL.
    apply analyzeContacts_merge in PL. destruct PL as (-> & _ & PL). lia. }
  assert (Hstable : db1 = db -> map id (rows db1) = map id (rows db) /\ db2 = db1).
  { intros E. split; [now rewrite E|]. unfold db2. rewrite E. exact E. }
  assert (Hmain : map id (rows db1) = map id (rows db) /\ db2 = db1).
  { destruct (truthy p && negb (ten_digits (param_text p))) eqn:G.
    { apply Hstable. unfold db1, identifyContact. now rewrite G. }
    destruct (analyzeContacts (findContactsByEmailOrPhone db e p) e p)
      as [pc|ps ss|pc n|pid n|] eqn:PL;
      try (apply Hstable, Hquiet; intros ps0 ss0; congruence).
    pose proof (analyzeContacts_merge _ _ _ _ _ PL) as (Eps & Ess & Lps).
    set (M := findContactsByEmailOrPhone db e p) in *.
    destruct ps as [|first rest]; [simpl in Lps; lia|].
    destruct (mergePrimaryContacts_spec clock db first rest ss e p)
      as (dbm & HT & _ & Hrun).
    set (mainPrimary := oldest_of clock first rest) in *.
    assert (Hcov : determineNewInfo ((first :: rest) ++ ss) e p
                   = mkNewInfo false false).
    { apply determineNewInfo_covered; intros T.
      - destruct (He0 T) as (c & Hc & L & E). exists c. split; [|exact E].
        assert (HM : In c M) by (apply findContacts_In; split; auto;
                                 apply matches_true; auto).
        apply in_or_app. rewrite Eps, Ess.
        destruct (primary_or_secondary c); [left|right]; apply filter_In; auto.
      - destruct (Hp0 T) as (c & Hc & L & E). exists c. split; [|exact E].
        assert (HM : In c M) by (apply findContacts_In; split; auto;
                                 apply matches_true; auto).
        apply in_or_app. rewrite Eps, Ess.
        destruct (primary_or_secondary c); [left|right]; apply filter_In; auto. }
    rewrite Hcov, attach_nothing in Hrun.
    assert (E1 : db1 = dbm).
    { unfold db1, identifyContact. rewrite G. fold M.
      destruct M as [|c0 l0] eqn:EM; [discriminate Eps|].
      rewrite PL. cbn [executeConsolidation]. now rewrite Hrun. }
    split; [rewrite E1; eapply touched_map_id; eauto|].
    unfold db2. rewrite E1. rewrite Eps, Ess in HT.
    apply identify_writes_nothing; auto.
    - intros T. destruct (He0 T) as (c & Hc & L & E).
      destruct (touched_In _ _ _ _ _ HT Hc) as (c' & Hc' & Tc).
      exists c'. rewrite (touched_live _ _ _ _ Tc).
      apply touched_keys in Tc. destruct Tc as (-> & _). auto.
    - intros T. destruct (Hp0 T) as (c & Hc & L & E).
      destruct (touched_In _ _ _ _ _ HT Hc) as (c' & Hc' & Tc).
      exists c'. rewrite (touched_live _ _ _ _ Tc).
      apply touched_keys in Tc. destruct Tc as (_ & -> & _). auto.
    - intros ps' ss' PL'. apply analyzeContacts_merge in PL'.
      destruct PL' as (Eps' & _ & L').
      assert (L1 : (List.length ps' <= 1)%nat); [|lia].
      apply (same_id_at_most_one (id mainPrimary)).
      + rewrite Eps'. apply filter_NoDup_ids, findContacts_NoDup_ids.
        rewrite (touched_map_id _ _ _ _ HT). exact ND.
      + intros c' Hc'. rewrite Eps' in Hc'. apply filter_In in Hc'.
        destruct Hc' as [Hc' P'].
        eapply merged_primaries_are_main; eauto. }
  destruct Hmain as [H1 H2]. repeat split; auto.
  intros g'. now rewrite H2.
Qed.

(** Both values of the observation are held in the group of row 1. *)
Lemma identify_twice_no_new_information_witness :
  snd (identifyContact tick_clock
         (snd (identifyContact tick_clock linked2
                 (Some "b@x.com") (Some "1111111111")))
         (Some "b@x.com") (Some "1111111111"))
  = snd (identifyContact tick_clock linked2 (Some "b@x.com") (Some "1111111111")).
Proof.
  assert (ND : NoDup (map id (rows linked2))).
  { vm_compute. repeat constructor; simpl; intuition discriminate. }
  assert (He : held_in_group linked2 1 email (Some "b@x.com")).
  { intros _. eexists. split; [right; left; reflexivity|]. split; reflexivity. }
  assert (Hp : held_in_group linked2 1 phoneNumber (Some "1111111111")).
  { intros _. eexists. split; [left; reflexivity|]. split; reflexivity. }
  destruct (identify_twice_no_new_information tick_clock linked2
              (Some "b@x.com") (Some "1111111111") 1 ND
              (or_introl eq_refl) He Hp) as (_ & H & _).
  exact H.
Defined.

(** C9.  In every view returned by [identifyContact] the [emails] list and
    the [phoneNumbers] list are duplicate free.  The values are compared as
    exact strings: the view of a freshly created primary lists the supplied
    values, and any other view lists a string exactly when some member
    fetched for the group of the primary the view names, from the database
    the call leaves behind, holds that very string (non-empty) in the
    field. *)
Theorem identify_view_has_no_duplicates (clock : Clock) (db db' : Database)
    (e p : option string) (v : ConsolidatedView) :
  identifyContact clock db e p = (inr v, db') ->
  NoDup (emails v) /\ NoDup (phoneNumbers v)
  /\ ((emails v = (if truthy e then [param_text e] else [])
       /\ phoneNumbers v = (if truthy p then [param_text p] else []))
      \/ ((forall s, In s (emails v) <->
              exists c, In c (getLinkedContacts db' (primaryContactId v))
                        /\ email c = Some s /\ s <> "")
          /\ (forall s, In s (phoneNumbers v) <->
              exists c, In c (getLinkedContacts db' (primaryContactId v))
                        /\ phoneNumber c = Some s /\ s <> ""))).
Proof.
  intros H. destruct (identify_view_cases _ _ _ _ _ _ H) as [[He Hp]|[pid ->]].
  - rewrite He, Hp. repeat split.
    + destruct (truthy e); repeat constructor; simpl; tauto.
    + destruct (truthy p); repeat constructor; simpl; tauto.
    + left; auto.
  - repeat split.
    + apply set_of_NoDup.
    + apply set_of_NoDup.
    + right. change (primaryContactId (buildResponse db' pid)) with pid.
      split; intros s.
      * apply buildResponse_emails_In.
      * apply buildResponse_phoneNumbers_In.
Qed.

(** The view returned for the merged group of the recorded session. *)
Lemma identify_view_has_no_duplicates_witness :
  NoDup ["b@x.com"; "a@x.com"] /\ NoDup ["2222222222"; "1111111111"].
Proof.
  pose proof (identify_view_has_no_duplicates tick_clock session4 session4
                (Some "a@x.com") (Some "2222222222")
                (mkView (Some 1) ["b@x.com"; "a@x.com"]
                        ["2222222222"; "1111111111"] [2])
                eq_refl) as (H1 & H2 & _).
  split; [exact H1 | exact H2].
Defined.

(** C10.  In a merge of the matched primaries [ps] and matched secondaries
    [ss] of a store with unique keys, the record of the retained primary is
    left exactly as it was (all fields, timestamps included), and so is
    every matched secondary that already names the retained primary and
    every row outside the match set; each other colliding primary and each
    matched secondary that names another row is rewritten by one link
    update (new [linkedId], precedence [secondary], new [updatedAt], nothing
    else). *)
Theorem merge_writes_only_rows_to_relink (clock : Clock) (db : Database)
    (ps ss : list Contact) (e p : option string) :
  NoDup (map id (rows db)) ->
  ps <> [] ->
  (forall c, In c ps -> In c (rows db) /\ linkPrecedence c = primary) ->
  (forall c, In c ss -> In c (rows db) /\ linkPrecedence c = secondary) ->
  exists mainPrimary db',
    In mainPrimary ps
    /\ mergePrimaryContacts clock db ps ss e p
       = (inr (buildResponse db' (Some (id mainPrimary))), db')
    /\ get_by_id db' (id mainPrimary) = Some mainPrimary
    /\ (forall s, In s ss -> linkedId s = Some (id mainPrimary) ->
          get_by_id db' (id s) = Some s)
    /\ (forall c, In c (rows db) -> ~ In c (ps ++ ss)%list ->
          get_by_id db' (id c) = Some c)
    /\ (forall c, In c ps -> id c <> id mainPrimary ->
          exists now,
            get_by_id db' (id c)
            = Some (set_link (Some (id mainPrimary)) secondary now c))
    /\ (forall c, In c ss -> linkedId c <> Some (id mainPrimary) ->
          exists now,
            get_by_id db' (id c)
            = Some (set_link (Some (id mainPrimary)) secondary now c)).
Proof.
  intros ND Hne Hps Hss. destruct ps as [|first rest]; [congruence|].
  destruct (mergePrimaryContacts_effect clock db first rest ss e p ND Hps Hss)
    as (db' & H).
  exists (oldest_of clock first rest), db'. split; [apply oldest_of_In | exact H].
Qed.

(** The merge of the two primaries of [session2]. *)
Lemma merge_writes_only_rows_to_relink_witness :
  exists mainPrimary db',
    In mainPrimary (rows session2)
    /\ mergePrimaryContacts tick_clock session2 (rows session2) []
         (Some "a@x.com") (Some "2222222222")
       = (inr (buildResponse db' (Some (id mainPrimary))), db')
    /\ get_by_id db' (id mainPrimary) = Some mainPrimary.
Proof.
  assert (ND : NoDup (map id (rows session2))).
  { vm_compute. repeat constructor; simpl; intuition discriminate. }
  assert (Hne : rows session2 <> []) by (vm_compute; discriminate).
  assert (Hps : forall c, In c (rows session2) ->
                          In c (rows session2) /\ linkPrecedence c = primary).
  { intros c Hc. split; [exact Hc|].
    destruct Hc as [<-|[<-|[]]]; reflexivity. }
  assert (Hss : forall c, In c [] ->
                          In c (rows session2) /\ linkPrecedence c = secondary).
  { intros c []. }
  destruct (merge_writes_only_rows_to_relink tick_clock session2
              (rows session2) [] (Some "a@x.com") (Some "2222222222")
              ND Hne Hps Hss) as (m & d & H1 & H2 & H3 & _).
  exists m, d. auto.
Defined.

(* ------------------------------------------------------------------ *)
(** ** Every way a call can end *)

Lemma max_rowid_ids (l l' : list Contact) :
  map id l = map id l' -> max_rowid l = max_rowid l'.
Proof.
  revert l'. induction l as [|x t IH]; intros [|y t'] H; simpl in *;
    try discriminate; [reflexivity|].
  injection H as H1 H2. now rewrite H1, (IH t' H2).
Qed.

Lemma next_id_touched (T : list Z) (m : Z) (db dbm : Database) :
  Forall2 (touched T m) (rows db) (rows dbm) -> seq dbm = seq db ->
  next_id dbm = next_id db.
Proof.
  intros HT S. unfold next_id. rewrite S.
  now rewrite (max_rowid_ids _ _ (touched_map_id _ _ _ _ HT)).
Qed.

Lemma findPrimaryInChain_Some (c r : Contact) (l : list Contact) :
  In c l -> findPrimaryInChain c l = Some r ->
  In r l /\ linkPrecedence r = primary
  /\ (r = c \/ (linkPrecedence c = secondary /\ linkedId c = Some (id r))).
Proof.
  intros Hc. unfold findPrimaryInChain. destruct (is_primary c) eqn:P.
  - intros [= <-]. apply is_primary_true in P. auto.
  - intros F. apply find_some in F. destruct F as [Hr F].
    apply andb_true_iff in F. destruct F as [E Pr].
    apply strict_eqZ_true in E. apply is_primary_true in Pr.
    repeat split; auto. right. split; [|now symmetry].
    destruct (primary_or_secondary c) as [Q|Q]; [congruence|].
    now apply is_secondary_true.
Qed.

(** The four ways a call of [identifyContact] ends: an error with the
    store as it was; the view of an exact duplicate's primary with the
    store as it was; a new primary; or a run of link updates (possibly
    none) followed by the shared tail that may create one secondary. *)
Lemma identify_cases (clock : Clock) (db : Database) (e p : option string) :
  let M := findContactsByEmailOrPhone db e p in
  (exists err, identifyContact clock db e p = (inl err, db))
  \/ (exists pc, In pc M /\ linkPrecedence pc = primary
                 /\ identifyContact clock db e p
                    = (inr (buildResponse db (Some (id pc))), db))
  \/ (M = []
      /\ (truthy p = true -> ten_digits (param_text p) = true)
      /\ identifyContact clock db e p = createNewPrimaryContact clock db e p)
  \/ (exists dbm T m pid l,
         M <> []
         /\ (truthy p = true -> ten_digits (param_text p) = true)
         /\ Forall2 (touched T m) (rows db) (rows dbm)
         /\ seq dbm = seq db
         /\ (forall i, In i T -> exists pc, In pc M /\ m = id pc)
         /\ (forall c, In c M -> In c l)
         /\ (forall c, In c l -> In c M)
         /\ ((exists pc, In pc M /\ pid = Some (id pc))
             \/ (exists s, In s M /\ linkPrecedence s = secondary
                           /\ pid = linkedId s))
         /\ identifyContact clock db e p
            = (inr (buildResponse
                      (snd (attach clock dbm pid (determineNewInfo l e p) e p))
                      pid),
               snd (attach clock dbm pid (determineNewInfo l e p) e p))).
Proof.
  intros M. unfold identifyContact.
  destruct (truthy p && negb (ten_digits (param_text p))) eqn:G;
    [left; eauto|].
  assert (Hv : truthy p = true -> ten_digits (param_text p) = true).
  { intros T. rewrite T in G. simpl in G. now apply negb_false_iff in G. }
  fold M. destruct M as [|c0 l0] eqn:EM; [right; right; left; auto|].
  assert (Hne : M <> []) by (rewrite EM; discriminate).
  rewrite <- EM. clear EM c0 l0 G.
  assert (Hattach : forall pid,
    ((exists pc, In pc M /\ pid = Some (id pc))
     \/ (exists s, In s M /\ linkPrecedence s = secondary /\ pid = linkedId s)) ->
    exists dbm T m pid' l,
      M <> []
      /\ (truthy p = true -> ten_digits (param_text p) = true)
      /\ Forall2 (touched T m) (rows db) (rows dbm)
      /\ seq dbm = seq db
      /\ (forall i, In i T -> exists pc, In pc M /\ m = id pc)
      /\ (forall c, In c M -> In c l)
      /\ (forall c, In c l -> In c M)
      /\ ((exists pc, In pc M /\ pid' = Some (id pc))
          \/ (exists s, In s M /\ linkPrecedence s = secondary
                        /\ pid' = linkedId s))
      /\ attach clock db pid (determineNewInfo M e p) e p
         = (inr (buildResponse
                   (snd (attach clock dbm pid' (determineNewInfo l e p) e p))
                   pid'),
            snd (attach clock dbm pid' (determineNewInfo l e p) e p))).
  { intros pid Hpid. exists db, [], 0, pid, M.
    repeat split; auto; [apply touched_refl | intros i []]. }
  unfold analyzeContacts.
  destruct (match find _ M, find _ M with
            | Some a, Some b => if (id a =? id b)%Z then Some a else None
            | _, _ => None
            end) as [a|] eqn:EX.
  - assert (Ha : In a M).
    { destruct (find (fun c => strict_eq (email c) e) M) as [x|] eqn:Fx;
        [|discriminate].
      destruct (find (fun c => strict_eq (phoneNumber c) p) M); [|discriminate].
      destruct (id x =? id c)%Z; [|discriminate].
      injection EX as <-. now apply find_some in Fx. }
    cbn [executeConsolidation].
    destruct (findPrimaryInChain a M) as [r|] eqn:F; simpl.
    + right; left. exists r.
      destruct (findPrimaryInChain_Some _ _ _ Ha F) as (Hr & Pr & _). auto.
    + left. eauto.
  - destruct (filter is_primary M) as [|a [|b t]] eqn:FP.
    + destruct (filter is_secondary M) as [|s t] eqn:FS.
      * exfalso. destruct M as [|c0 l0]; [congruence|].
        destruct (primary_or_secondary c0) as [P|P].
        -- assert (H : In c0 (filter is_primary (c0 :: l0)))
             by (apply filter_In; simpl; auto).
           rewrite FP in H. contradiction.
        -- assert (H : In c0 (filter is_secondary (c0 :: l0)))
             by (apply filter_In; simpl; auto).
           rewrite FS in H. contradiction.
      * right; right; right. cbn [executeConsolidation].
        unfold linkToExistingPrimary. apply Hattach.
        right. exists s.
        assert (H : In s (filter is_secondary M)) by (rewrite FS; simpl; auto).
        apply filter_In in H. destruct H as [H Q].
        apply is_secondary_true in Q. auto.
    + right; right; right. cbn [executeConsolidation].
      unfold createSecondaryContact. apply Hattach.
      left. exists a.
      assert (H : In a (filter is_primary M)) by (rewrite FP; simpl; auto).
      apply filter_In in H. tauto.
    + right; right; right. cbn [executeConsolidation].
      destruct (mergePrimaryContacts_spec clock db a (b :: t)
                  (filter is_secondary M) e p) as (dbm & HT & S & Hrun).
      exists dbm, (merge_targets (oldest_of clock a (b :: t)) (a :: b :: t)
                                 (filter is_secondary M)),
             (id (oldest_of clock a (b :: t))), (Some (id (oldest_of clock a (b :: t)))),
             ((a :: b :: t) ++ filter is_secondary M)%list.
      repeat split; auto.
      * intros i _. exists (oldest_of clock a (b :: t)). split; [|reflexivity].
        pose proof (oldest_of_In clock a (b :: t)) as H. rewrite <- FP in H.
        apply filter_In in H. tauto.
      * intros c Hc. apply in_or_app. rewrite <- FP.
        destruct (primary_or_secondary c); [left|right]; apply filter_In; auto.
      * intros c Hc. rewrite <- FP in Hc. apply in_app_or in Hc.
        destruct Hc as [Hc|Hc]; apply filter_In in Hc; tauto.
      * left. exists (oldest_of clock a (b :: t)). split; [|reflexivity].
        pose proof (oldest_of_In clock a (b :: t)) as H. rewrite <- FP in H.
        apply filter_In in H. tauto.
Qed.

Lemma touched_kept_as (T : list Z) (m : Z) (c c' : Contact) :
  touched T m c c' -> kept_as c c'.
Proof.
  intros H. pose proof (touched_id _ _ _ _ H) as Hid.
  pose proof (touched_keys _ _ _ _ H) as (He & Hp & Hc & Hd).
  unfold kept_as. repeat split; auto.
  destruct (touched_cases _ _ _ _ H) as [->|[now ->]]; [auto|].
  right. simpl. eauto.
Qed.

Lemma Forall2_impl_kept (T : list Z) (m : Z) (l l' : list Contact) :
  Forall2 (touched T m) l l' -> Forall2 kept_as l l'.
Proof.
  induction 1; constructor; eauto using touched_kept_as.
Qed.

(** The rows a call leaves behind: the rows it found, and after them at
    most one new row. *)
Lemma identify_rows (clock : Clock) (db : Database) (e p : option string) :
  exists kept extra,
    rows (snd (identifyContact clock db e p)) = (kept ++ extra)%list
    /\ Forall2 kept_as (rows db) kept
    /\ (List.length extra <= 1)%nat
    /\ (forall r, In r extra ->
          id r = next_id db /\ deletedAt r = None /\ updatedAt r = createdAt r).
Proof.
  assert (Hsame : Forall2 kept_as (rows db) (rows db)).
  { apply (Forall2_impl_kept [] 0), touched_refl. }
  destruct (identify_cases clock db e p)
    as [[err ->]|[(pc & _ & _ & ->)|[(_ & _ & ->)
       |(dbm & T & m & pid & l & _ & _ & HT & S & _ & _ & _ & _ & ->)]]];
    cbn [snd].
  - exists (rows db), []. rewrite app_nil_r.
    split; [reflexivity|]. split; [exact Hsame|].
    split; [simpl; lia | intros r []].
  - exists (rows db), []. rewrite app_nil_r.
    split; [reflexivity|]. split; [exact Hsame|].
    split; [simpl; lia | intros r []].
  - rewrite createNewPrimaryContact_spec. cbn [snd rows].
    eexists (rows db), [_].
    split; [reflexivity|]. split; [exact Hsame|].
    split; [simpl; lia|]. intros r [<-|[]]. simpl. auto.
  - rewrite attach_db.
    destruct (needsEmail (determineNewInfo l e p)
              || needsPhone (determineNewInfo l e p)); cbn [rows].
    + eexists (rows dbm), [_].
      split; [reflexivity|]. split; [eapply Forall2_impl_kept; eauto|].
      split; [simpl; lia|]. intros r [<-|[]]. simpl.
      split; [eapply next_id_touched; eauto | auto].
    + exists (rows dbm), []. rewrite app_nil_r.
      split; [reflexivity|]. split; [eapply Forall2_impl_kept; eauto|].
      split; [simpl; lia | intros r []].
Qed.

(* ------------------------------------------------------------------ *)
(** ** Further properties of the store *)

Lemma group_order_total (a b : Contact) :
  by_precedence_desc_createdAt a b = false ->
  by_precedence_desc_createdAt b a = true.
Proof.
  unfold by_precedence_desc_createdAt.
  destruct (linkPrecedence a), (linkPrecedence b); simpl;
    try discriminate; try reflexivity;
    rewrite Z.leb_gt, Z.leb_le; lia.
Qed.

Lemma group_order_trans (a b c : Contact) :
  group_order a b -> group_order b c -> group_order a c.
Proof.
  unfold group_order, by_precedence_desc_createdAt.
  destruct (linkPrecedence a), (linkPrecedence b), (linkPrecedence c); simpl;
    try discriminate; try reflexivity;
    rewrite !Z.leb_le; lia.
Qed.

Lemma insert_row_group_order (x : Contact) (s : list Contact) :
  StronglySorted group_order s ->
  StronglySorted group_order (insert_row by_precedence_desc_createdAt x s).
Proof.
  induction 1 as [|y s Hs IH Hy]; simpl.
  - repeat constructor.
  - rewrite Forall_forall in Hy.
    destruct (by_precedence_desc_createdAt x y) eqn:L.
    + constructor; [constructor; auto; now apply Forall_forall|].
      apply Forall_forall. intros z [<-|Hz]; [exact L|].
      eapply group_order_trans; [exact L | now apply Hy].
    + constructor; [exact IH|].
      apply Forall_forall. intros z Hz. apply insert_row_In in Hz.
      destruct Hz as [<-|Hz]; [now apply group_order_total | now apply Hy].
Qed.

Lemma find_app_other (f : Contact -> bool) (l : list Contact) (x : Contact) :
  f x = false -> find f (l ++ [x]) = find f l.
Proof.
  intros H. induction l as [|y t IH]; simpl; [now rewrite H|].
  destruct (f y); auto.
Qed.

Lemma max_updatedAt_spec (l : list Contact) :
  match max_updatedAt l with
  | None => l = []
  | Some m => (forall c, In c l -> updatedAt c <= m)
              /\ exists c, In c l /\ updatedAt c = m
  end.
Proof.
  induction l as [|x t IH]; simpl; [reflexivity|].
  destruct (max_updatedAt t) as [m|].
  - destruct IH as [Hle (c & Hc & E)]. split.
    + intros y [<-|Hy]; [lia | specialize (Hle y Hy); lia].
    + destruct (Z.max_spec (updatedAt x) m) as [[_ ->]|[_ ->]]; eauto.
  - subst t. split; [intros y [<-|[]]; lia | eauto].
Qed.

Lemma count_where_app (f : Contact -> bool) (l l' : list Contact) :
  count_where f (l ++ l') = count_where f l + count_where f l'.
Proof.
  unfold count_where. rewrite filter_app, length_app. lia.
Qed.

Lemma count_where_split (f g h : Contact -> bool) (l : list Contact) :
  (forall c, f c = true -> xorb (g c) (h c) = true) ->
  (forall c, f c = false -> g c = false /\ h c = false) ->
  count_where f l = count_where g l + count_where h l.
Proof.
  intros Ht Hf. unfold count_where. induction l as [|x t IH]; simpl; [reflexivity|].
  destruct (f x) eqn:F.
  - specialize (Ht x F). destruct (g x), (h x); try discriminate;
      simpl List.length; lia.
  - destruct (Hf x F) as [-> ->]. exact IH.
Qed.

(** X1.  The match query returns exactly the live rows whose email is the
    given non-empty email or whose phone is the given non-empty phone (so
    nothing at all when neither is given, and never a tombstoned row), by
    ascending [createdAt]. *)
Theorem findContacts_selects_live_matches (db : Database) (e p : option string) :
  (forall c, In c (findContactsByEmailOrPhone db e p) <->
     In c (rows db) /\ deletedAt c = None
     /\ ((truthy e = true /\ email c = e)
         \/ (truthy p = true /\ phoneNumber c = p)))
  /\ StronglySorted not_later (findContactsByEmailOrPhone db e p).
Proof.
  split; [|apply findContacts_sorted].
  intros c. rewrite findContacts_In, matches_true. unfold live.
  destruct (deletedAt c); intuition congruence.
Qed.

(** X2.  [createContact] hands back the very row it inserted; the row sits
    after the rows already there, its key is larger than every key in the
    table, it is live with equal creation and update times, and a lookup
    by any other key answers as before. *)
Theorem createContact_returns_inserted_row (clock : Clock) (db : Database)
    (e p : option string) (l : option Z) (prec : LinkPrecedence) :
  exists row,
    createContact clock db e p l prec
    = (Some row, mkDatabase (rows db ++ [row]) (id row) (S (stmts db)))
    /\ email row = e /\ phoneNumber row = p /\ linkedId row = l
    /\ linkPrecedence row = prec
    /\ createdAt row = clock (stmts db) /\ updatedAt row = createdAt row
    /\ deletedAt row = None
    /\ (forall c, In c (rows db) -> id c < id row)
    /\ (forall i, i <> id row ->
          get_by_id (snd (createContact clock db e p l prec)) i = get_by_id db i).
Proof.
  exists (mkContact (next_id db) p e l prec
                    (clock (stmts db)) (clock (stmts db)) None).
  rewrite createContact_spec. split; [reflexivity|].
  cbn [snd id email phoneNumber linkedId linkPrecedence createdAt updatedAt
       deletedAt].
  do 7 (split; [reflexivity|]). split.
  - intros c Hc. now apply next_id_fresh.
  - intros i Hi. unfold get_by_id. cbn [rows]. apply find_app_other.
    simpl. now apply Z.eqb_neq.
Qed.

(** X3.  [updateContactLink] answers with the updated row when the key is
    in the table and with [undefined] when it is not; in the first case
    the row keeps everything but its link, precedence and update time, in
    the second the table is left as it was; a lookup by any other key
    answers as before, and no key is added or removed. *)
Theorem updateContactLink_lookup (clock : Clock) (db : Database)
    (i : Z) (l : option Z) (prec : LinkPrecedence) :
  let db' := snd (updateContactLink clock db i l prec) in
  fst (updateContactLink clock db i l prec)
  = option_map (set_link l prec (clock (stmts db))) (get_by_id db i)
  /\ (forall j, j <> i -> get_by_id db' j = get_by_id db j)
  /\ (get_by_id db i = None -> rows db' = rows db)
  /\ map id (rows db') = map id (rows db).
Proof.
  unfold updateContactLink, get_by_id. cbn [fst snd rows].
  repeat split.
  - induction (rows db) as [|x t IH]; simpl; [reflexivity|].
    destruct (Z.eqb_spec (id x) i) as [E|E]; simpl.
    + now rewrite E, Z.eqb_refl.
    + destruct (Z.eqb_spec (id x) i); [contradiction | exact IH].
  - intros j Hj. induction (rows db) as [|x t IH]; simpl; [reflexivity|].
    destruct (Z.eqb_spec (id x) i) as [E|E]; simpl.
    + destruct (Z.eqb_spec (id x) j); [congruence | exact IH].
    + destruct (Z.eqb_spec (id x) j); [reflexivity | exact IH].
  - induction (rows db) as [|x t IH]; simpl; [reflexivity|].
    destruct (Z.eqb_spec (id x) i) as [E|E]; [discriminate|].
    intros H. now rewrite (IH H).
  - induction (rows db) as [|x t IH]; simpl; [reflexivity|].
    rewrite IH. destruct (id x =? i)%Z; reflexivity.
Qed.

(** X4.  The group fetch returns its rows in the order of the query's
    [ORDER BY]: descending precedence text, then ascending [createdAt].
    For a null primary id it returns nothing. *)
Theorem getLinkedContacts_ordered (db : Database) (pid : option Z) :
  StronglySorted group_order (getLinkedContacts db pid)
  /\ getLinkedContacts db None = [].
Proof.
  split.
  - unfold getLinkedContacts.
    induction (filter live (index_or (id_is pid) (linkedId_is pid) (rows db)))
      as [|x t IH]; simpl; [constructor|].
    now apply insert_row_group_order.
  - destruct (getLinkedContacts db None) as [|c t] eqn:E; [reflexivity|exfalso].
    assert (H : In c (getLinkedContacts db None)) by (rewrite E; simpl; auto).
    apply getLinkedContacts_In in H. destruct H as [_ H].
    unfold in_group, id_is, linkedId_is, sql_eq_int in H.
    destruct (linkedId c); discriminate H.
Qed.

(** X5.  In the statistics the number of live contacts is the number of
    live primaries plus the number of live secondaries, and no count is
    negative.  [lastUpdate] is null exactly on an empty table; otherwise it
    is the largest [updatedAt] of the table, tombstoned rows included. *)
Theorem getStats_counts (db : Database) :
  let s := getDatabaseStats db in
  totalContacts s = primaryContacts s + secondaryContacts s
  /\ 0 <= primaryContacts s /\ 0 <= secondaryContacts s
  /\ (lastUpdate s = None <-> rows db = [])
  /\ (forall m, lastUpdate s = Some m ->
        (forall c, In c (rows db) -> updatedAt c <= m)
        /\ exists c, In c (rows db) /\ updatedAt c = m).
Proof.
  unfold getDatabaseStats, getStats. cbn [totalContacts primaryContacts
    secondaryContacts lastUpdate].
  split; [|split; [unfold count_where; lia|split; [unfold count_where; lia|]]].
  - apply count_where_split.
    + intros c L. rewrite L. destruct (linkPrecedence c); reflexivity.
    + intros c L. rewrite L, !andb_false_r. auto.
  - pose proof (max_updatedAt_spec (rows db)) as H.
    destruct (max_updatedAt (rows db)) as [m|]; split.
    + split; [discriminate|]. intros E. rewrite E in H.
      destruct H as [_ (c & [] & _)].
    + intros m' [= <-]. exact H.
    + tauto.
    + discriminate.
Qed.

(* ------------------------------------------------------------------ *)
(** ** Further properties of the service *)

Lemma count_where_Forall2 (R : Contact -> Contact -> Prop)
    (f g : Contact -> bool) (l l' : list Contact) :
  Forall2 R l l' ->
  (forall c c', R c c' -> f c = true -> g c' = true) ->
  count_where f l <= count_where g l'.
Proof.
  intros H Himp. unfold count_where.
  induction H as [|c c' l l' Hc _ IH]; simpl; [lia|].
  destruct (f c) eqn:F.
  - rewrite (Himp c c' Hc F). simpl List.length. lia.
  - destruct (g c'); simpl List.length; lia.
Qed.

Lemma kept_as_live (c c' : Contact) : kept_as c c' -> live c' = live c.
Proof. intros (_ & _ & _ & _ & D & _). unfold live. now rewrite D. Qed.

Lemma Forall2_length_eq (R : Contact -> Contact -> Prop) (l l' : list Contact) :
  Forall2 R l l' -> List.length l' = List.length l.
Proof. induction 1; simpl; congruence. Qed.

(** A row of the match set holds one of the two supplied values, so the
    two are never both missing. *)
Lemma not_both_needed (l : list Contact) (e p : option string) (c : Contact) :
  In c l -> matches e p c = true ->
  needsEmail (determineNewInfo l e p) && needsPhone (determineNewInfo l e p)
  = false.
Proof.
  intros Hc M. apply matches_true in M. destruct M as [_ [[T E]|[T E]]].
  - destruct (needsEmail (determineNewInfo l e p)) eqn:N; [|reflexivity].
    apply needsEmail_fresh in N. destruct N as [_ N]. now destruct (N c Hc).
  - destruct (needsPhone (determineNewInfo l e p)) eqn:N;
      [|apply andb_false_r].
    apply needsPhone_fresh in N. destruct N as [_ N]. now destruct (N c Hc).
Qed.

(** X6.  Across one call of [identifyContact] the statistics move one way:
    the number of live contacts grows by one or stays, the number of live
    secondaries never shrinks, and the number of live primaries grows by at
    most one. *)
Theorem identify_stats_monotone (clock : Clock) (db : Database)
    (e p : option string) :
  let s := getDatabaseStats db in
  let s' := getDatabaseStats (snd (identifyContact clock db e p)) in
  totalContacts s <= totalContacts s' <= totalContacts s + 1
  /\ secondaryContacts s <= secondaryContacts s'
  /\ primaryContacts s' <= primaryContacts s + 1.
Proof.
  destruct (identify_rows clock db e p) as (kept & extra & R & HK & HL & HX).
  unfold getDatabaseStats, getStats.
  cbn [totalContacts primaryContacts secondaryContacts].
  rewrite R, !count_where_app.
  assert (Hx : forall f, 0 <= count_where f extra <= 1).
  { intros f. unfold count_where.
    pose proof (filter_length_le f extra). lia. }
  assert (Hlive : count_where live extra = Z.of_nat (List.length extra)).
  { unfold count_where. f_equal. f_equal.
    apply forallb_filter_id, forallb_forall. intros r Hr.
    destruct (HX r Hr) as (_ & D & _). unfold live. now rewrite D. }
  assert (E1 : count_where live kept = count_where live (rows db)).
  { apply Z.le_antisymm.
    - apply (count_where_Forall2 (fun a b => kept_as b a)).
      + clear -HK. induction HK; constructor; auto.
      + intros c c' K L. now rewrite <- (kept_as_live _ _ K).
    - apply (count_where_Forall2 kept_as); [exact HK|].
      intros c c' K L. now rewrite (kept_as_live _ _ K). }
  assert (E2 : count_where
                 (fun c => precedence_eqb (linkPrecedence c) secondary && live c)
                 (rows db)
               <= count_where
                    (fun c => precedence_eqb (linkPrecedence c) secondary && live c)
                    kept).
  { apply (count_where_Forall2 kept_as); [exact HK|].
    intros c c' K L. rewrite (kept_as_live _ _ K).
    apply andb_true_iff in L. destruct L as [L1 L2]. rewrite L2, andb_true_r.
    destruct K as (_ & _ & _ & _ & _ & [->|[-> _]]); [exact L1 | reflexivity]. }
  assert (E3 : count_where
                 (fun c => precedence_eqb (linkPrecedence c) primary && live c)
                 kept
               <= count_where
                    (fun c => precedence_eqb (linkPrecedence c) primary && live c)
                    (rows db)).
  { apply (count_where_Forall2 (fun a b => kept_as b a)).
    - clear -HK. induction HK; constructor; auto.
    - intros c' c K L. rewrite <- (kept_as_live _ _ K).
      apply andb_true_iff in L. destruct L as [L1 L2]. rewrite L2, andb_true_r.
      destruct K as (_ & _ & _ & _ & _ & [->|[Q _]]); [exact L1|].
      rewrite Q in L1. discriminate. }
  pose proof (Hx live).
  pose proof (Hx (fun c => precedence_eqb (linkPrecedence c) secondary && live c)).
  pose proof (Hx (fun c => precedence_eqb (linkPrecedence c) primary && live c)).
  lia.
Qed.

(** X7.  A call of [identifyContact] never removes a row, never reorders
    the table and never edits what a row holds: every row it found is still
    in its place with the same key, email, phone, creation time and
    tombstone, either untouched or relinked as a secondary (never promoted);
    after those rows comes at most one new row, live, with the next key. *)
Theorem identify_keeps_rows (clock : Clock) (db : Database)
    (e p : option string) :
  exists kept extra,
    rows (snd (identifyContact clock db e p)) = (kept ++ extra)%list
    /\ Forall2 kept_as (rows db) kept
    /\ (List.length extra <= 1)%nat
    /\ (forall r, In r extra ->
          id r = next_id db /\ deletedAt r = None /\ updatedAt r = createdAt r).
Proof. apply identify_rows. Qed.

(** The two places where the code of the service raises an error: the
    phone check at the head of [identifyContact], and the read of [id] in the
    exact-duplicate branch of [executeConsolidation]. *)
Lemma identify_error_cases (clock : Clock) (db db' : Database)
    (e p : option string) (err : Error) :
  identifyContact clock db e p = (inl err, db') ->
  db' = db
  /\ ((err = invalid_phone_error
       /\ truthy p = true /\ ten_digits (param_text p) = false)
      \/ (err = TypeError "Cannot read properties of undefined (reading 'id')"
          /\ analyzeContacts (findContactsByEmailOrPhone db e p) e p
             = return_existing None)).
Proof.
  intros H. split.
  - destruct (identify_cases clock db e p)
      as [[err0 E]|[(pc & _ & _ & E)|[(_ & _ & E)
         |(dbm & T & m & pid & l & _ & _ & _ & _ & _ & _ & _ & _ & E)]]];
      rewrite E in H; try discriminate H.
    + now injection H.
    + rewrite createNewPrimaryContact_spec in H. discriminate H.
  - revert H. unfold identifyContact.
    destruct (truthy p && negb (ten_digits (param_text p))) eqn:G.
    { intros [= <- _]. left. apply andb_true_iff in G. destruct G as [T G].
      apply negb_true_iff in G. auto. }
    destruct (findContactsByEmailOrPhone db e p) as [|c0 l0].
    { rewrite createNewPrimaryContact_spec. discriminate. }
    destruct (analyzeContacts (c0 :: l0) e p) as [pc|ps ss|pc n|pid n|] eqn:PL;
      cbn [executeConsolidation].
    + destruct pc; simpl; [discriminate | intros [= <- _]; auto].
    + apply analyzeContacts_merge in PL. destruct PL as (_ & _ & L).
      destruct ps as [|f r]; [simpl in L; lia|].
      destruct (mergePrimaryContacts_spec clock db f r ss e p)
        as (dbm & _ & _ & ->). discriminate.
    + discriminate.
    + discriminate.
    + rewrite createNewPrimaryContact_spec. discriminate.
Qed.

(** X9.  The errors that the code of [identifyContact] raises itself are
    raised before its first write statement.  There are two: the rejection
    of a supplied phone that is not ten digits, raised before the store is
    consulted, and the [TypeError] of reading [id] of [undefined], raised
    when the plan is an exact duplicate without a primary, after the match
    query and before any write.  In both cases the store is exactly as it
    was before the call.  (A statement that the store rejects is another
    matter: the calls run outside a transaction, and the embedding takes the
    statements to succeed.) *)
Theorem identify_error_leaves_store (clock : Clock) (db db' : Database)
    (e p : option string) (err : Error) :
  identifyContact clock db e p = (inl err, db') ->
  db' = db
  /\ ((err = invalid_phone_error
       /\ truthy p = true /\ ten_digits (param_text p) = false)
      \/ (err = TypeError "Cannot read properties of undefined (reading 'id')"
          /\ analyzeContacts (findContactsByEmailOrPhone db e p) e p
             = return_existing None)).
Proof. apply identify_error_cases. Qed.

(** X10.  The plan for a non-empty list of contacts is never the fallback
    [create_new_primary]: every contact is a primary or a secondary, so one
    of the earlier branches is taken.  As [identifyContact] analyses only
    non-empty match sets, the fallback is dead code. *)
Theorem analyzeContacts_fallback_unreachable (l : list Contact)
    (e p : option string) :
  l <> [] -> analyzeContacts l e p <> create_new_primary.
Proof.
  intros Hne E. pose proof (analyzeContacts_needs l e p) as H.
  rewrite E in H. contradiction.
Qed.

(** X8.  What the one new row of a call holds.  When nothing matched it is
    a primary with a null [linkedId] holding the email and phone as passed.
    Otherwise it is a secondary linked to the id the returned view names,
    and it holds exactly one value: the supplied email or the supplied
    phone, the one no live row of the table held; the other field is null. *)
Theorem identify_new_row (clock : Clock) (db : Database) (e p : option string)
    (kept : list Contact) (r : Contact) :
  rows (snd (identifyContact clock db e p)) = (kept ++ [r])%list ->
  List.length kept = List.length (rows db) ->
  (findContactsByEmailOrPhone db e p = []
   /\ linkPrecedence r = primary /\ linkedId r = None
   /\ email r = e /\ phoneNumber r = p)
  \/ (findContactsByEmailOrPhone db e p <> []
      /\ linkPrecedence r = secondary
      /\ (exists v, fst (identifyContact clock db e p) = inr v
                    /\ linkedId r = primaryContactId v)
      /\ ((truthy e = true /\ email r = e /\ phoneNumber r = None
           /\ forall c, In c (rows db) -> deletedAt c = None -> email c <> e)
          \/ (truthy p = true /\ phoneNumber r = p /\ email r = None
              /\ forall c, In c (rows db) -> deletedAt c = None ->
                           phoneNumber c <> p))).
Proof.
  intros H L.
  assert (Hlen : forall l : list Contact,
            l = (kept ++ [r])%list -> List.length l <> List.length (rows db)).
  { intros l ->. rewrite length_app. simpl. lia. }
  destruct (identify_cases clock db e p)
    as [[err E]|[(pc & _ & _ & E)|[(EM & _ & E)
       |(dbm & T & m & pid & l & Hne & _ & HT & _ & _ & HMl & HlM & _ & E)]]];
    rewrite E in H |- *; cbn [snd fst] in *.
  - now destruct (Hlen _ H).
  - now destruct (Hlen _ H).
  - left. rewrite createNewPrimaryContact_spec in H. cbn [snd rows] in H.
    apply app_inj_tail in H. destruct H as [_ <-]. simpl. auto.
  - right. rewrite attach_db in H.
    pose proof (Forall2_length_eq _ _ _ HT) as Ldbm.
    set (n := determineNewInfo l e p) in *.
    destruct (needsEmail n || needsPhone n) eqn:N; cbn [rows] in H;
      [|destruct (Hlen _ H); exact Ldbm].
    apply app_inj_tail in H. destruct H as [_ <-].
    cbn [linkPrecedence linkedId email phoneNumber].
    split; [exact Hne|]. split; [reflexivity|].
    split; [eexists; split; reflexivity|].
    assert (Hboth : needsEmail n && needsPhone n = false).
    { destruct (findContactsByEmailOrPhone db e p) as [|c0 l0] eqn:EM;
        [congruence|].
      assert (H0 : In c0 (findContactsByEmailOrPhone db e p))
        by (rewrite EM; simpl; auto).
      apply (not_both_needed l e p c0).
      - apply HMl. rewrite <- EM. exact H0.
      - apply findContacts_In in H0. tauto. }
    assert (Hfresh_e : needsEmail n = true ->
              truthy e = true
              /\ forall c, In c (rows db) -> deletedAt c = None -> email c <> e).
    { intros Ne. apply needsEmail_fresh in Ne. destruct Ne as [Te Ne].
      split; [exact Te|]. intros c Hc D Ec. apply (Ne c); [|exact Ec].
      apply HMl, findContacts_In. split; [exact Hc|].
      apply matches_true. unfold live. rewrite D. auto. }
    assert (Hfresh_p : needsPhone n = true ->
              truthy p = true
              /\ forall c, In c (rows db) -> deletedAt c = None ->
                           phoneNumber c <> p).
    { intros Np. apply needsPhone_fresh in Np. destruct Np as [Tp Np].
      split; [exact Tp|]. intros c Hc D Ec. apply (Np c); [|exact Ec].
      apply HMl, findContacts_In. split; [exact Hc|].
      apply matches_true. unfold live. rewrite D. auto. }
    destruct (needsEmail n), (needsPhone n); try discriminate.
    + left. destruct (Hfresh_e eq_refl). auto.
    + right. destruct (Hfresh_p eq_refl). auto.
Qed.

(** X11.  A call of [identifyContact] keeps the links well formed: if in
    the store every primary has a null [linkedId] and every secondary names
    a row of the table, the same holds of the store the call leaves. *)
Theorem identify_preserves_links_wellformed (clock : Clock) (db : Database)
    (e p : option string) :
  links_wellformed db ->
  links_wellformed (snd (identifyContact clock db e p)).
Proof.
  intros W.
  assert (Hgrow : forall (old : list Contact) (d : Database) (row : Contact),
            (forall c, In c old ->
               (linkPrecedence c = primary -> linkedId c = None)
               /\ (linkPrecedence c = secondary ->
                   exists t, In t old /\ linkedId c = Some (id t))) ->
            rows d = (old ++ [row])%list ->
            ((linkPrecedence row = primary /\ linkedId row = None)
             \/ (linkPrecedence row = secondary
                 /\ exists t, In t old /\ linkedId row = Some (id t))) ->
            links_wellformed d).
  { intros old d row Wold R Hrow c Hc. rewrite R in *.
    apply in_app_or in Hc. destruct Hc as [Hc|[<-|[]]].
    - destruct (Wold c Hc) as [W1 W2]. split; [exact W1|].
      intros S. destruct (W2 S) as (t & Ht & Et). exists t.
      split; [apply in_or_app; auto | exact Et].
    - destruct Hrow as [[P N]|[S (t & Ht & Et)]]; split; intros Q;
        try congruence.
      exists t. split; [apply in_or_app; auto | exact Et]. }
  destruct (identify_cases clock db e p)
    as [[err ->]|[(pc & _ & _ & ->)|[(_ & _ & ->)
       |(dbm & T & m & pid & l & _ & _ & HT & _ & Hm & _ & _ & Hpid & ->)]]];
    cbn [snd]; try exact W.
  - rewrite createNewPrimaryContact_spec. cbn [snd].
    eapply (Hgrow (rows db)); [exact W | reflexivity |]. left. simpl. auto.
  - assert (Hid : forall c, In c (rows db) ->
               exists c', In c' (rows dbm) /\ id c' = id c).
    { intros c Hc. destruct (touched_In _ _ _ _ _ HT Hc) as (c' & Hc' & Tc).
      exists c'. split; [exact Hc' | eapply touched_id; eauto]. }
    assert (HM : forall c, In c (findContactsByEmailOrPhone db e p) ->
                           In c (rows db)).
    { intros c Hc. apply findContacts_In in Hc. tauto. }
    assert (Wm : forall c, In c (rows dbm) ->
               (linkPrecedence c = primary -> linkedId c = None)
               /\ (linkPrecedence c = secondary ->
                   exists t, In t (rows dbm) /\ linkedId c = Some (id t))).
    { intros c' Hc'. destruct (touched_In_inv _ _ _ _ _ HT Hc') as (c & Hc & Tc).
      destruct (W c Hc) as [W1 W2].
      destruct (in_dec Z.eq_dec (id c) T) as [I|I].
      - destruct Tc as [T1 _]. destruct (T1 I) as [now ->]. simpl.
        split; [discriminate|]. intros _.
        destruct (Hm _ I) as (pc & Hpc & ->).
        destruct (Hid pc (HM pc Hpc)) as (t & Ht & Et).
        exists t. split; [exact Ht | congruence].
      - destruct Tc as [_ T2]. rewrite (T2 I). split; [exact W1|].
        intros S. destruct (W2 S) as (t & Ht & Et).
        destruct (Hid t Ht) as (t' & Ht' & Et').
        exists t'. split; [exact Ht' | congruence]. }
    rewrite attach_db.
    destruct (needsEmail (determineNewInfo l e p)
              || needsPhone (determineNewInfo l e p)); [|exact Wm].
    eapply (Hgrow (rows dbm)); [exact Wm | reflexivity |].
    right. cbn [linkPrecedence linkedId]. split; [reflexivity|].
    destruct Hpid as [(pc & Hpc & ->)|(s & Hs & Ss & ->)].
    + destruct (Hid pc (HM pc Hpc)) as (t & Ht & Et).
      exists t. split; [exact Ht | congruence].
    + destruct (W s (HM s Hs)) as [_ W2]. destruct (W2 Ss) as (t & Ht & Et).
      destruct (Hid t Ht) as (t' & Ht' & Et').
      exists t'. split; [exact Ht' | congruence].
Qed.

Lemma needsEmail_iff (l : list Contact) (e p : option string) :
  needsEmail (determineNewInfo l e p) = true <->
  truthy e = true /\ forall c, In c l -> email c <> e.
Proof.
  split; [apply needsEmail_fresh|]. intros [T N]. simpl. rewrite T. simpl.
  apply negb_true_iff, includes_false. intros H.
  apply filter_Boolean_In in H. destruct H as [H _].
  apply in_map_iff in H. destruct H as (c & E & Hc). apply (N c Hc).
  apply truthy_Some in T. destruct T as (s & -> & _). exact E.
Qed.

Lemma needsPhone_iff (l : list Contact) (e p : option string) :
  needsPhone (determineNewInfo l e p) = true <->
  truthy p = true /\ forall c, In c l -> phoneNumber c <> p.
Proof.
  split; [apply needsPhone_fresh|]. intros [T N]. simpl. rewrite T. simpl.
  apply negb_true_iff, includes_false. intros H.
  apply filter_Boolean_In in H. destruct H as [H _].
  apply in_map_iff in H. destruct H as (c & E & Hc). apply (N c Hc).
  apply truthy_Some in T. destruct T as (s & -> & _). exact E.
Qed.

Lemma email_held_or_needed (l : list Contact) (e p : option string) :
  truthy e = true ->
  needsEmail (determineNewInfo l e p) = true \/ exists c, In c l /\ email c = e.
Proof.
  intros T. destruct (needsEmail (determineNewInfo l e p)) eqn:N; [auto|right].
  simpl in N. rewrite T in N. simpl in N.
  apply negb_false_iff, includes_In, filter_Boolean_In in N.
  destruct N as [N _]. apply in_map_iff in N. destruct N as (c & E & Hc).
  exists c. split; [exact Hc|].
  apply truthy_Some in T. destruct T as (s & -> & _). exact E.
Qed.

Lemma phone_held_or_needed (l : list Contact) (e p : option string) :
  truthy p = true ->
  needsPhone (determineNewInfo l e p) = true
  \/ exists c, In c l /\ phoneNumber c = p.
Proof.
  intros T. destruct (needsPhone (determineNewInfo l e p)) eqn:N; [auto|right].
  simpl in N. rewrite T in N. simpl in N.
  apply negb_false_iff, includes_In, filter_Boolean_In in N.
  destruct N as [N _]. apply in_map_iff in N. destruct N as (c & E & Hc).
  exists c. split; [exact Hc|].
  apply truthy_Some in T. destruct T as (s & -> & _). exact E.
Qed.

(** X14.  [determineNewInfo] asks for the email exactly when an email is
    supplied (non-empty) and no listed contact holds it, and for the phone
    exactly when a phone is supplied and no listed contact holds it. *)
Theorem determineNewInfo_spec (l : list Contact) (e p : option string) :
  (needsEmail (determineNewInfo l e p) = true <->
     truthy e = true /\ forall c, In c l -> email c <> e)
  /\ (needsPhone (determineNewInfo l e p) = true <->
        truthy p = true /\ forall c, In c l -> phoneNumber c <> p).
Proof. split; [apply needsEmail_iff | apply needsPhone_iff]. Qed.

(** X15.  [findPrimaryInChain] answers with a primary or with nothing: a
    primary contact is its own answer; for a secondary the answer is a
    primary of the list whose id is the contact's [linkedId], and there is
    no answer exactly when the list has no such primary. *)
Theorem findPrimaryInChain_spec (c : Contact) (l : list Contact) :
  match findPrimaryInChain c l with
  | Some r =>
      linkPrecedence r = primary
      /\ (r = c
          \/ (In r l /\ linkPrecedence c = secondary
              /\ linkedId c = Some (id r)))
  | None =>
      linkPrecedence c = secondary
      /\ forall t, In t l -> linkPrecedence t = primary ->
                   linkedId c <> Some (id t)
  end.
Proof.
  unfold findPrimaryInChain. destruct (is_primary c) eqn:P.
  - apply is_primary_true in P. auto.
  - assert (S : linkPrecedence c = secondary).
    { destruct (primary_or_secondary c) as [Q|Q]; [congruence|].
      now apply is_secondary_true. }
    destruct (find _ l) as [r|] eqn:F.
    + apply find_some in F. destruct F as [Hr F].
      apply andb_true_iff in F. destruct F as [E Pr].
      apply strict_eqZ_true in E. apply is_primary_true in Pr.
      split; [exact Pr|]. right. repeat split; auto.
    + split; [exact S|]. intros t Ht Pt E.
      pose proof (find_none _ _ F t Ht) as N. simpl in N.
      apply andb_false_iff in N. destruct N as [N|N].
      * rewrite E in N. simpl in N. now rewrite Z.eqb_refl in N.
      * apply is_primary_true in Pt. congruence.
Qed.

(** X12.  Every store the service builds from the empty database has keys
    ascending in table order, no tombstoned row, each non-empty email and
    each non-empty phone held by one row only, and every non-empty phone
    ten digits long. *)
Theorem reachable_store_invariant (clock : Clock) (db : Database) :
  reachable clock db -> store_invariant db.
Proof. apply reachable_invariant. Qed.

(** The theorem at the store left by the fourth call of the session. *)
Lemma reachable_store_invariant_witness : store_invariant session4.
Proof.
  apply (reachable_store_invariant tick_clock).
  unfold session4, session3, session2, session1, after.
  repeat apply reachable_identify. apply reachable_empty.
Defined.

Lemma buildResponse_secondary_In (db : Database) (pid : option Z) (c : Contact) :
  In c (rows db) -> in_group pid c = true -> linkPrecedence c = secondary ->
  In (id c) (secondaryContactIds (buildResponse db pid)).
Proof.
  intros Hc G S. simpl. apply in_map, filter_In. split.
  - apply getLinkedContacts_In. auto.
  - now apply is_secondary_true.
Qed.

(** X13.  When the plan is a merge (in a store with unique keys, the phone
    having passed validation), the returned view is that of the retained
    primary and it covers the whole match set: every other matched row is
    by then a secondary of the retained primary and is listed among the
    secondary ids, every non-empty email and phone of a matched row is
    listed, and so are the supplied email and phone. *)
Theorem identify_merge_covers_match_set (clock : Clock) (db : Database)
    (e p : option string) (ps ss : list Contact) :
  NoDup (map id (rows db)) ->
  (truthy p = true -> ten_digits (param_text p) = true) ->
  analyzeContacts (findContactsByEmailOrPhone db e p) e p
  = merge_primaries ps ss ->
  exists mainPrimary v db',
    In mainPrimary ps
    /\ identifyContact clock db e p = (inr v, db')
    /\ primaryContactId v = Some (id mainPrimary)
    /\ (forall c, In c (findContactsByEmailOrPhone db e p) ->
          id c <> id mainPrimary ->
          (exists c', get_by_id db' (id c) = Some c'
                      /\ linkPrecedence c' = secondary
                      /\ linkedId c' = Some (id mainPrimary))
          /\ In (id c) (secondaryContactIds v))
    /\ (forall c s, In c (findContactsByEmailOrPhone db e p) ->
          email c = Some s -> s <> "" -> In s (emails v))
    /\ (forall c s, In c (findContactsByEmailOrPhone db e p) ->
          phoneNumber c = Some s -> s <> "" -> In s (phoneNumbers v))
    /\ (truthy e = true -> In (param_text e) (emails v))
    /\ (truthy p = true -> In (param_text p) (phoneNumbers v)).
Proof.
  intros ND Hv PL.
  set (M := findContactsByEmailOrPhone db e p) in *.
  pose proof (analyzeContacts_merge _ _ _ _ _ PL) as (Eps & Ess & L).
  destruct ps as [|first rest]; [simpl in L; lia|].
  assert (HM : forall c, In c M -> In c (rows db) /\ deletedAt c = None).
  { intros c Hc. apply findContacts_In in Hc. destruct Hc as [Hc Mc].
    apply matches_true in Mc. destruct Mc as [Lc _]. unfold live in Lc.
    split; [exact Hc|]. destruct (deletedAt c); [discriminate | reflexivity]. }
  assert (Hps : forall c, In c (first :: rest) ->
                          In c (rows db) /\ linkPrecedence c = primary).
  { intros c Hc. rewrite Eps in Hc. apply filter_In in Hc. destruct Hc as [Hc P].
    split; [apply HM, Hc | now apply is_primary_true]. }
  assert (Hss : forall c, In c ss -> In c (rows db) /\ linkPrecedence c = secondary).
  { intros c Hc. rewrite Ess in Hc. apply filter_In in Hc. destruct Hc as [Hc P].
    split; [apply HM, Hc | now apply is_secondary_true]. }
  assert (Hall : forall c, In c M -> In c ((first :: rest) ++ ss)%list).
  { intros c Hc. apply in_or_app. rewrite Eps, Ess.
    destruct (primary_or_secondary c); [left|right]; apply filter_In; auto. }
  assert (Hback : forall c, In c ((first :: rest) ++ ss)%list -> In c M).
  { intros c Hc. apply in_app_or in Hc. rewrite Eps, Ess in Hc.
    destruct Hc as [Hc|Hc]; apply filter_In in Hc; tauto. }
  destruct (mergePrimaryContacts_effect clock db first rest ss e p ND Hps Hss)
    as (db' & Hrun & Hkeep & Hsame & _ & Hdem & Hrep).
  destruct (mergePrimaryContacts_spec clock db first rest ss e p)
    as (dbm & HT & _ & Hrun2).
  set (main := oldest_of clock first rest) in *.
  assert (Hmain : In main (first :: rest)) by (apply (oldest_of_In clock first rest)).
  assert (Edb : db' = snd (attach clock dbm (Some (id main))
                             (determineNewInfo ((first :: rest) ++ ss) e p) e p)).
  { rewrite Hrun in Hrun2. now injection Hrun2. }
  (* the row that stands for a matched row after the merge *)
  assert (Himg : forall c, In c M ->
            exists c', In c' (rows db') /\ id c' = id c
                       /\ email c' = email c /\ phoneNumber c' = phoneNumber c
                       /\ in_group (Some (id main)) c' = true
                       /\ get_by_id db' (id c) = Some c'
                       /\ (id c <> id main ->
                           linkPrecedence c' = secondary
                           /\ linkedId c' = Some (id main))).
  { intros c Hc. destruct (HM c Hc) as [Hr D].
    assert (Hgroup : forall c', deletedAt c' = None ->
              (id c' = id main \/ linkedId c' = Some (id main)) ->
              in_group (Some (id main)) c' = true).
    { intros c' D' [E|E]; unfold in_group, id_is, linkedId_is, live;
        rewrite D'; simpl.
      - rewrite E, Z.eqb_refl. reflexivity.
      - rewrite E. simpl. rewrite Z.eqb_refl, orb_true_r. reflexivity. }
    assert (Hset : forall now,
              get_by_id db' (id c)
              = Some (set_link (Some (id main)) secondary now c) ->
              exists c', In c' (rows db') /\ id c' = id c
                         /\ email c' = email c /\ phoneNumber c' = phoneNumber c
                         /\ in_group (Some (id main)) c' = true
                         /\ get_by_id db' (id c) = Some c'
                         /\ (id c <> id main ->
                             linkPrecedence c' = secondary
                             /\ linkedId c' = Some (id main))).
    { intros now G. eexists. split; [eapply find_some, G|].
      repeat split; auto; try (apply Hgroup; simpl; auto). }
    assert (Hsame' : get_by_id db' (id c) = Some c ->
              (id c = id main \/ (linkPrecedence c = secondary
                                  /\ linkedId c = Some (id main))) ->
              exists c', In c' (rows db') /\ id c' = id c
                         /\ email c' = email c /\ phoneNumber c' = phoneNumber c
                         /\ in_group (Some (id main)) c' = true
                         /\ get_by_id db' (id c) = Some c'
                         /\ (id c <> id main ->
                             linkPrecedence c' = secondary
                             /\ linkedId c' = Some (id main))).
    { intros G Hwhy. exists c. split; [eapply find_some, G|].
      repeat split; auto.
      - apply Hgroup; [exact D|]. tauto.
      - destruct Hwhy as [E|[S _]]; [contradiction | exact S].
      - destruct Hwhy as [E|[_ E]]; [contradiction | exact E]. }
    apply Hall, in_app_or in Hc. destruct Hc as [Hc|Hc].
    - destruct (Z.eq_dec (id c) (id main)) as [E|E].
      + assert (c = main) as -> by
          (eapply NoDup_ids_eq; eauto; apply Hps; auto).
        apply Hsame'; auto.
      + destruct (Hdem c Hc E) as [now G]. eapply Hset, G.
    - destruct (strict_eqZ (linkedId c) (Some (id main))) eqn:Q.
      + apply strict_eqZ_true in Q. apply Hsame'; [now apply Hsame|].
        right. split; [apply Hss, Hc | exact Q].
      + assert (Q' : linkedId c <> Some (id main)).
        { intros Q'. apply strict_eqZ_true in Q'. congruence. }
        destruct (Hrep c Hc Q') as [now G]. eapply Hset, G. }
  exists main, (buildResponse db' (Some (id main))), db'.
  split; [exact Hmain|]. split.
  { unfold identifyContact.
    destruct (truthy p && negb (ten_digits (param_text p))) eqn:G.
    { apply andb_true_iff in G. destruct G as [T G].
      rewrite (Hv T) in G. discriminate. }
    fold M. destruct M as [|c0 l0] eqn:EM; [discriminate Eps|].
    rewrite PL. exact Hrun. }
  split; [reflexivity|]. split; [|split; [|split; [|split]]].
  - intros c Hc E. destruct (Himg c Hc) as (c' & Hc' & Ei & _ & _ & G & F & W).
    destruct (W E) as [S Lk]. split; [eauto|].
    rewrite <- Ei. now apply buildResponse_secondary_In.
  - intros c s Hc Ec Hs. destruct (Himg c Hc) as (c' & Hc' & _ & Ee & _ & G & _).
    apply buildResponse_emails_In. exists c'.
    split; [apply getLinkedContacts_In; auto | split; [congruence | exact Hs]].
  - intros c s Hc Ec Hs. destruct (Himg c Hc) as (c' & Hc' & _ & _ & Ep & G & _).
    apply buildResponse_phoneNumbers_In. exists c'.
    split; [apply getLinkedContacts_In; auto | split; [congruence | exact Hs]].
  - intros T. pose proof T as T'. apply truthy_Some in T'.
    destruct T' as (s & Es & Hs). subst e. simpl.
    destruct (email_held_or_needed ((first :: rest) ++ ss) (Some s) p T)
      as [N|(c & Hc & Ec)].
    + apply buildResponse_emails_In. rewrite Edb, attach_db, N. cbn [orb].
      eexists. split; [apply getLinkedContacts_In; split|].
      * cbn [rows]. apply in_or_app. right. left. reflexivity.
      * unfold in_group, id_is, linkedId_is, live. simpl.
        rewrite Z.eqb_refl. apply andb_true_iff. split; [apply orb_true_r|reflexivity].
      * simpl. auto.
    + destruct (Himg c (Hback c Hc)) as (c' & Hc' & _ & Ee & _ & G & _).
      apply buildResponse_emails_In. exists c'.
      split; [apply getLinkedContacts_In; auto | split; [congruence | exact Hs]].
  - intros T. pose proof T as T'. apply truthy_Some in T'.
    destruct T' as (s & Es & Hs). subst p. simpl.
    destruct (phone_held_or_needed ((first :: rest) ++ ss) e (Some s) T)
      as [N|(c & Hc & Ec)].
    + apply buildResponse_phoneNumbers_In. rewrite Edb, attach_db, N.
      rewrite orb_true_r.
      eexists. split; [apply getLinkedContacts_In; split|].
      * cbn [rows]. apply in_or_app. right. left. reflexivity.
      * unfold in_group, id_is, linkedId_is, live. simpl.
        rewrite Z.eqb_refl. apply andb_true_iff. split; [apply orb_true_r|reflexivity].
      * simpl. auto.
    + destruct (Himg c (Hback c Hc)) as (c' & Hc' & _ & _ & Ep & G & _).
      apply buildResponse_phoneNumbers_In. exists c'.
      split; [apply getLinkedContacts_In; auto | split; [congruence | exact Hs]].
Qed.

Lemma all_same_singleton (a : Contact) (l : list Contact) :
  In a l -> NoDup (map id l) -> (forall c, In c l -> c = a) -> l = [a].
Proof.
  intros Ha ND Hall. destruct l as [|x [|y t]]; [contradiction| |].
  - now rewrite (Hall x (or_introl eq_refl)).
  - exfalso. rewrite (Hall x), (Hall y) in ND by (simpl; auto).
    inversion ND as [|? ? Hn _]. apply Hn. simpl. auto.
Qed.

(** X16.  On a store the service has built, submitting again the exact
    email and phone held by one row (at least one of them non-empty) never
    writes.  If the row is a primary the call returns the view of its
    group; if the row is a secondary the call throws the [TypeError]: the
    row is then the whole match set, and its primary is looked for in the
    match set only. *)
Theorem identify_exact_pair (clock : Clock) (db : Database) (a : Contact) :
  reachable clock db ->
  In a (rows db) ->
  truthy (email a) = true \/ truthy (phoneNumber a) = true ->
  identifyContact clock db (email a) (phoneNumber a)
  = match linkPrecedence a with
    | primary => (inr (buildResponse db (Some (id a))), db)
    | secondary =>
        (inl (TypeError "Cannot read properties of undefined (reading 'id')"),
         db)
    end.
Proof.
  intros R Ha Hsome. pose proof (reachable_invariant _ _ R) as I.
  pose proof (store_invariant_NoDup _ I) as ND.
  set (e := email a). set (p := phoneNumber a).
  assert (HaM : In a (findContactsByEmailOrPhone db e p)).
  { apply findContacts_In. split; [exact Ha|]. apply matches_true.
    split; [now apply (store_invariant_live db)|].
    destruct Hsome; [left | right]; auto. }
  assert (EM : findContactsByEmailOrPhone db e p = [a]).
  { apply all_same_singleton; [exact HaM | now apply findContacts_NoDup_ids |].
    intros c Hc. eapply NoDup_ids_eq; eauto.
    - apply findContacts_In in Hc. tauto.
    - eapply exact_row_is_match_set; eauto. }
  unfold identifyContact.
  assert (G : truthy p && negb (ten_digits (param_text p)) = false).
  { destruct (truthy p) eqn:T; [|reflexivity]. simpl. apply negb_false_iff.
    apply truthy_Some in T. destruct T as (s & Es & Hs). rewrite Es. simpl.
    eapply (inv_digits _ I); eauto. }
  rewrite G, EM. unfold analyzeContacts. cbn [find].
  assert (Ee : strict_eq (email a) e = true) by now apply strict_eq_true.
  assert (Ep : strict_eq (phoneNumber a) p = true) by now apply strict_eq_true.
  rewrite Ee, Ep, Z.eqb_refl. cbn [executeConsolidation].
  unfold findPrimaryInChain, is_primary. cbn [find].
  destruct (linkPrecedence a); simpl; [reflexivity|].
  rewrite andb_false_r. reflexivity.
Qed.

(** The theorem at row 2 of [merged3], a secondary holding an email and a
    phone. *)
Lemma identify_exact_pair_witness :
  identifyContact tick_clock merged3 (Some "b@x.com") (Some "2222222222")
  = (inl (TypeError "Cannot read properties of undefined (reading 'id')"),
     merged3).
Proof.
  assert (R : reachable tick_clock merged3).
  { unfold merged3, session2, session1, after.
    repeat apply reachable_identify. apply reachable_empty. }
  apply (identify_exact_pair tick_clock merged3
           (mkContact 2 (Some "2222222222") (Some "b@x.com") (Some 1) secondary
                      1001 1002 None) R).
  - right. left. reflexivity.
  - left. reflexivity.
Defined.

Lemma getLinkedContacts_NoDup_ids (db : Database) (pid : option Z) :
  NoDup (map id (rows db)) -> NoDup (map id (getLinkedContacts db pid)).
Proof.
  intros ND. unfold getLinkedContacts. eapply Permutation_NoDup.
  - apply Permutation_map. symmetry. apply order_by_Permutation.
  - apply filter_NoDup_ids. eapply Permutation_NoDup.
    + apply Permutation_map. symmetry. apply index_or_Permutation.
    + now apply filter_NoDup_ids.
Qed.

(** X17.  The view built for a primary id names that id, and its secondary
    ids are exactly the ids of the live secondaries whose own id or
    [linkedId] is that id; when the keys of the table are unique no id is
    listed twice. *)
Theorem buildResponse_secondary_ids (db : Database) (pid : option Z) :
  NoDup (map id (rows db)) ->
  primaryContactId (buildResponse db pid) = pid
  /\ (forall i, In i (secondaryContactIds (buildResponse db pid)) <->
        exists c, In c (rows db) /\ in_group pid c = true
                  /\ linkPrecedence c = secondary /\ id c = i)
  /\ NoDup (secondaryContactIds (buildResponse db pid)).
Proof.
  intros ND. split; [reflexivity|]. split.
  - intros i. simpl. rewrite in_map_iff. split.
    + intros (c & E & Hc). apply filter_In in Hc. destruct Hc as [Hc S].
      apply getLinkedContacts_In in Hc. apply is_secondary_true in S.
      exists c. tauto.
    + intros (c & Hc & G & S & E). exists c. split; [exact E|].
      apply filter_In. split; [apply getLinkedContacts_In; auto|].
      now apply is_secondary_true.
  - simpl. apply filter_NoDup_ids. now apply getLinkedContacts_NoDup_ids.
Qed.

(** The theorem at the store left by the fourth call of the session. *)
Lemma buildResponse_secondary_ids_witness :
  NoDup (secondaryContactIds (buildResponse session4 (Some 1))).
Proof.
  assert (ND : NoDup (map id (rows session4))).
  { vm_compute. repeat constructor; simpl; intuition discriminate. }
  destruct (buildResponse_secondary_ids session4 (Some 1) ND) as (_ & _ & H).
  exact H.
Defined.

(* ------------------------------------------------------------------ *)
(** ** The route and its validators *)

Lemma digit_is_plain (a : ascii) (r : string) :
  is_digit a = true ->
  is_separator a = false /\ space_width (String a r) = 0%nat
  /\ (nat_of_ascii a =? 43)%nat = false.
Proof.
  destruct a as [[] [] [] [] [] [] [] []]; try discriminate; intros _;
    (split; [reflexivity|]); (split; [|reflexivity]);
    destruct r as [|b [|c r']]; reflexivity.
Qed.

Lemma strip_digits (s : string) : all_digits s = true -> strip_from 0 s = s.
Proof.
  induction s as [|a r IH]; cbn [strip_from]; [reflexivity|].
  cbn [all_digits]. intros H. apply andb_true_iff in H. destruct H as [D H].
  destruct (digit_is_plain a r D) as (-> & -> & _). now rewrite (IH H).
Qed.

Lemma digit_nonzero (a : ascii) :
  is_digit a = true ->
  ((49 <=? nat_of_ascii a) && (nat_of_ascii a <=? 57))%nat
  = negb (Ascii.eqb a "0").
Proof.
  destruct a as [[] [] [] [] [] [] [] []]; try discriminate; reflexivity.
Qed.

(** The route's check on a string of ten digits: the first must not be 0. *)
Lemma isValidPhoneNumber_ten_digits (s : string) :
  ten_digits s = true ->
  isValidPhoneNumber s
  = match s with
    | String a _ => negb (Ascii.eqb a "0")
    | EmptyString => false
    end.
Proof.
  unfold ten_digits, isValidPhoneNumber. intros H.
  apply andb_true_iff in H. destruct H as [L D]. rewrite (strip_digits s D).
  destruct s as [|a r]; [reflexivity|].
  simpl in D. apply andb_true_iff in D. destruct D as [Da Dr].
  unfold phone_pattern. destruct (digit_is_plain a r Da) as (_ & _ & ->).
  rewrite (digit_nonzero a Da), Dr.
  change (String.length (String a r)) with (S (String.length r)) in L.
  apply Nat.eqb_eq in L. injection L as L. rewrite L.
  change (9 <=? 15)%nat with true. now rewrite !andb_true_r.
Qed.

Lemma isValidPhoneNumber_nonempty : isValidPhoneNumber "" = false.
Proof. reflexivity. Qed.

Lemma phone_checks_both (s : string) :
  isValidPhoneNumber s = true /\ ten_digits s = true <->
  ten_digits s = true /\ forall r, s <> String "0" r.
Proof.
  split; intros [H1 H2].
  - split; [exact H2|]. intros r ->.
    rewrite (isValidPhoneNumber_ten_digits _ H2) in H1. discriminate H1.
  - split; [|exact H1]. rewrite (isValidPhoneNumber_ten_digits _ H1).
    destruct s as [|a r]; [discriminate H1|].
    destruct (Ascii.eqb_spec a "0") as [->|]; [now destruct (H2 r) | reflexivity].
Qed.

(** X18.  The route and the service check the phone differently, and a
    phone passes both exactly when it is ten digits of which the first is
    not 0: the route alone also lets through a sign, separators and up to
    sixteen digits, the service alone a leading 0. *)
Theorem phone_checks_agree (s : string) :
  isValidPhoneNumber s = true /\ ten_digits s = true <->
  ten_digits s = true /\ forall r, s <> String "0" r.
Proof. apply phone_checks_both. Qed.

Lemma view_eta (v : ConsolidatedView) :
  mkView (primaryContactId v) (emails v) (phoneNumbers v)
         (secondaryContactIds v) = v.
Proof. now destruct v. Qed.

(** X19.  The route answers 200 only to a request that supplies an email
    or a phone, whose email (if supplied) has the shape the route asks for
    and whose phone (if supplied) is ten digits not starting with 0; the
    body is then the view the service returned and the store is the one
    the service left. *)
Theorem post_identify_ok (clock : Clock) (requestId : string)
    (db db' : Database) (e p : option string) (resp : Response) :
  post_identify clock requestId db e p = (resp, db') ->
  status resp = 200 ->
  (truthy e = true \/ truthy p = true)
  /\ (truthy e = true -> isValidEmail (param_text e) = true)
  /\ (truthy p = true ->
      ten_digits (param_text p) = true
      /\ forall r, param_text p <> String "0" r)
  /\ exists v, identifyContact clock db e p = (inr v, db')
               /\ body resp = ContactBody v.
Proof.
  unfold post_identify.
  destruct (negb (truthy e) && negb (truthy p)) eqn:G0;
    [intros [= <- _]; discriminate|].
  destruct (truthy e && negb (isValidEmail (param_text e))) eqn:G1;
    [intros [= <- _]; discriminate|].
  destruct (truthy p && negb (isValidPhoneNumber (param_text p))) eqn:G2;
    [intros [= <- _]; discriminate|].
  destruct (identifyContact clock db e p) as [[err|v] d] eqn:E;
    intros [= <- <-]; [discriminate|]. intros _.
  assert (Hp : truthy p = true -> ten_digits (param_text p) = true).
  { intros T. unfold identifyContact in E. rewrite T in E. simpl in E.
    destruct (ten_digits (param_text p)); [reflexivity|discriminate E]. }
  split; [|split; [|split]].
  - destruct (truthy e), (truthy p); auto; discriminate G0.
  - intros T. rewrite T in G1. simpl in G1. now apply negb_false_iff in G1.
  - intros T. apply phone_checks_both. split; [|auto].
    rewrite T in G2. simpl in G2. now apply negb_false_iff in G2.
  - exists v. split; [reflexivity|]. simpl. now rewrite view_eta.
Qed.

(** X20.  A request that the route refuses, or that the service refuses
    with an error of its own, leaves the store as it was: while the store
    carries out its statements, an answer other than 200 is a 400 of the
    route's checks, given before the service is called, or the 500 that the
    route makes of an error raised by the code of [identifyContact], which
    is raised before the first write. *)
Theorem post_identify_failure_leaves_store (clock : Clock) (requestId : string)
    (db db' : Database) (e p : option string) (resp : Response) :
  post_identify clock requestId db e p = (resp, db') ->
  status resp <> 200 ->
  db' = db
  /\ (status resp = 400
      \/ (status resp = 500
          /\ exists err, identifyContact clock db e p = (inl err, db))).
Proof.
  unfold post_identify.
  destruct (negb (truthy e) && negb (truthy p)); [intros [= <- <-]; auto|].
  destruct (truthy e && negb (isValidEmail (param_text e)));
    [intros [= <- <-]; auto|].
  destruct (truthy p && negb (isValidPhoneNumber (param_text p)));
    [intros [= <- <-]; auto|].
  destruct (identifyContact clock db e p) as [[err|v] d] eqn:E;
    intros [= <- <-]; simpl; [|congruence].
  intros _. destruct (identify_error_cases _ _ _ _ _ _ E) as [-> _].
  split; [reflexivity|]. right. split; [reflexivity|]. now exists err.
Qed.

(** X21.  A phone that the route lets through but that is not ten digits
    is refused by the service inside the route's [try]: the client gets the
    500 of an internal error, not a 400, and the store is not touched. *)
Theorem post_identify_hides_phone_rejection (clock : Clock)
    (requestId : string) (db : Database) (e : option string) (s : string) :
  (truthy e = true -> isValidEmail (param_text e) = true) ->
  isValidPhoneNumber s = true ->
  ten_digits s = false ->
  post_identify clock requestId db e (Some s)
  = (mkResponse 500 (FailureBody "Service temporarily unavailable"
                                 "INTERNAL_ERROR" requestId),
     db).
Proof.
  intros He Hr Hs.
  assert (T : truthy (Some s) = true).
  { simpl. destruct (String.eqb_spec s ""); [|reflexivity].
    subst s. discriminate Hr. }
  unfold post_identify. rewrite T, andb_false_r.
  replace (truthy e && negb (isValidEmail (param_text e))) with false
    by (destruct (truthy e); [rewrite (He eq_refl)|]; reflexivity).
  cbn [param_text]. rewrite Hr. cbn [negb andb].
  unfold identifyContact. rewrite T. cbn [param_text]. rewrite Hs. reflexivity.
Qed.

Lemma has_at_app (x y : string) : has_at (x ++ y) = has_at x || has_at y.
Proof.
  induction x as [|a x IH]; simpl; [reflexivity|].
  now rewrite IH, orb_assoc.
Qed.

Lemma split_at_spec (s l d : string) :
  split_at s = Some (l, d) <-> s = l ++ String "@" d /\ has_at l = false.
Proof.
  revert l. induction s as [|a s IH]; intros l; simpl.
  - split; [discriminate|]. intros [H _]. destruct l; discriminate H.
  - destruct (Nat.eqb_spec (nat_of_ascii a) 64) as [E|E].
    + assert (a = "@"%char) as ->.
      { rewrite <- (ascii_nat_embedding a), E. reflexivity. }
      split.
      * intros [= <- <-]. auto.
      * intros [H Hl]. destruct l as [|b l]; simpl in H.
        -- now injection H as <-.
        -- injection H as <- _. discriminate Hl.
    + split.
      * destruct (split_at s) as [[l' d']|] eqn:S; [|discriminate].
        intros [= <- <-]. destruct (proj1 (IH l') eq_refl) as [-> Hl].
        split; [reflexivity|]. simpl.
        destruct (Nat.eqb_spec (nat_of_ascii a) 64); [contradiction | exact Hl].
      * intros [H Hl]. destruct l as [|b l]; simpl in H.
        -- injection H as -> _. now destruct E.
        -- injection H as <- ->. simpl in Hl.
           apply orb_false_iff in Hl. destruct Hl as [_ Hl].
           now rewrite (proj2 (IH l) (conj eq_refl Hl)).
Qed.

Lemma dot_then_more_spec (r : string) :
  dot_then_more r = true <->
  exists x y, r = x ++ String "." y /\ y <> "".
Proof.
  induction r as [|a r IH]; simpl.
  - split; [discriminate|]. intros (x & y & H & _). destruct x; discriminate H.
  - rewrite orb_true_iff, andb_true_iff, IH, negb_true_iff. split.
    + intros [[E N]|(x & y & -> & Hy)].
      * apply Nat.eqb_eq in E. exists "", r. split.
        -- simpl. f_equal. rewrite <- (ascii_nat_embedding a), E. reflexivity.
        -- intros ->. discriminate N.
      * exists (String a x), y. auto.
    + intros (x & y & H & Hy). destruct x as [|b x]; simpl in H.
      * injection H as -> ->. left. split; [reflexivity|].
        destruct y; [contradiction | reflexivity].
      * injection H as <- ->. right. eauto.
Qed.

(** X22.  The route's email check accepts exactly the strings without any
    whitespace character that read [l @ d1 . d2] with [l], [d1] and [d2]
    non-empty and free of [@] (dots may occur anywhere in them). *)
Theorem isValidEmail_spec (s : string) :
  isValidEmail s = true <->
  has_space s = false
  /\ exists l d1 d2,
       s = l ++ String "@" (d1 ++ String "." d2)
       /\ l <> "" /\ d1 <> "" /\ d2 <> ""
       /\ has_at l = false /\ has_at d1 = false /\ has_at d2 = false.
Proof.
  unfold isValidEmail. rewrite andb_true_iff, negb_true_iff. split.
  - intros [Hs H]. split; [exact Hs|].
    destruct (split_at s) as [[l d]|] eqn:S; [|discriminate].
    apply split_at_spec in S. destruct S as [-> Hl].
    apply andb_true_iff in H. destruct H as [H Hd].
    apply andb_true_iff in H. destruct H as [Nl Hat].
    apply negb_true_iff in Nl, Hat.
    destruct d as [|c r]; [discriminate|].
    apply dot_then_more_spec in Hd. destruct Hd as (x & y & -> & Hy).
    exists l, (String c x), y. split; [reflexivity|].
    change (String c (x ++ String "." y)) with (String c x ++ String "." y) in Hat.
    rewrite has_at_app in Hat. apply orb_false_iff in Hat. destruct Hat as [H1 H2].
    simpl in H2. repeat split; auto.
    + intros ->. discriminate Nl.
    + discriminate.
  - intros [Hs (l & d1 & d2 & -> & Nl & N1 & N2 & Hl & H1 & H2)].
    split; [exact Hs|].
    rewrite (proj2 (split_at_spec _ l (d1 ++ String "." d2)) (conj eq_refl Hl)).
    rewrite has_at_app, H1. simpl has_at. rewrite H2.
    destruct l as [|a l]; [contradiction|]. simpl.
    destruct d1 as [|c x]; [contradiction|]. simpl.
    apply dot_then_more_spec. eauto.
Qed.

(* ------------------------------------------------------------------ *)
(** ** The further properties on the recorded sessions *)

(** The second call of the session appends a primary. *)
Lemma identify_new_row_witness :
  (findContactsByEmailOrPhone session1 (Some "b@x.com") (Some "2222222222") = []
   /\ linkPrecedence
        (mkContact 2 (Some "2222222222") (Some "b@x.com") None primary
                   1001 1001 None) = primary)
  \/ findContactsByEmailOrPhone session1 (Some "b@x.com") (Some "2222222222")
     <> [].
Proof.
  destruct (identify_new_row tick_clock session1
              (Some "b@x.com") (Some "2222222222") (rows session1)
              (mkContact 2 (Some "2222222222") (Some "b@x.com") None primary
                         1001 1001 None)
              eq_refl eq_refl) as [(H1 & H2 & _)|(H & _)].
  - left. split; [exact H1 | exact H2].
  - right. exact H.
Defined.

(** The exact pair of the secondary of [merged3] throws. *)
Lemma identify_error_leaves_store_witness :
  merged3 = merged3
  /\ ((TypeError "Cannot read properties of undefined (reading 'id')"
       = invalid_phone_error
       /\ truthy (Some "2222222222") = true
       /\ ten_digits (param_text (Some "2222222222")) = false)
      \/ (TypeError "Cannot read properties of undefined (reading 'id')"
          = TypeError "Cannot read properties of undefined (reading 'id')"
          /\ analyzeContacts
               (findContactsByEmailOrPhone merged3 (Some "b@x.com") (Some "2222222222"))
               (Some "b@x.com") (Some "2222222222")
             = return_existing None)).
Proof.
  apply (identify_error_leaves_store tick_clock merged3 merged3
           (Some "b@x.com") (Some "2222222222")).
  reflexivity.
Defined.

(** The match set of the third call of the session. *)
Lemma analyzeContacts_fallback_unreachable_witness :
  analyzeContacts (rows session2) (Some "a@x.com") (Some "2222222222")
  <> create_new_primary.
Proof.
  apply analyzeContacts_fallback_unreachable. vm_compute. discriminate.
Defined.

(** The links of [session1], one primary, and of the store after the next
    call. *)
Lemma identify_preserves_links_wellformed_witness :
  links_wellformed (snd (identifyContact tick_clock session1
                           (Some "a@x.com") (Some "2222222222"))).
Proof.
  apply identify_preserves_links_wellformed.
  intros c [<-|[]]. split; [reflexivity | discriminate].
Defined.

(** The merge of the third call of the session. *)
Lemma identify_merge_covers_match_set_witness :
  exists mainPrimary v db',
    In mainPrimary (rows session2)
    /\ identifyContact tick_clock session2 (Some "a@x.com") (Some "2222222222")
       = (inr v, db')
    /\ primaryContactId v = Some (id mainPrimary).
Proof.
  assert (ND : NoDup (map id (rows session2))).
  { vm_compute. repeat constructor; simpl; intuition discriminate. }
  destruct (identify_merge_covers_match_set tick_clock session2
              (Some "a@x.com") (Some "2222222222") (rows session2) []
              ND (fun _ => eq_refl) eq_refl)
    as (m & v & d & H1 & H2 & H3 & _).
  exists m, v, d. auto.
Defined.

(** A first request through the route. *)
Lemma post_identify_ok_witness :
  exists v,
    identifyContact tick_clock empty_db (Some "a@x.com") (Some "1111111111")
    = (inr v, session1)
    /\ ContactBody (mkView (Some 1) ["a@x.com"] ["1111111111"] [])
       = ContactBody v.
Proof.
  destruct (post_identify_ok tick_clock "r1" empty_db session1
              (Some "a@x.com") (Some "1111111111")
              (mkResponse 200
                 (ContactBody (mkView (Some 1) ["a@x.com"] ["1111111111"] [])))
              eq_refl eq_refl) as (_ & _ & _ & H).
  exact H.
Defined.

(** A request with a phone that starts with 0. *)
Lemma post_identify_failure_leaves_store_witness :
  session1 = session1
  /\ (400 = 400
      \/ (400 = 500
          /\ exists err,
               identifyContact tick_clock session1 (Some "a@x.com") (Some "0123456789")
               = (inl err, session1))).
Proof.
  apply (post_identify_failure_leaves_store tick_clock "r1" session1 session1
           (Some "a@x.com") (Some "0123456789")
           (mkResponse 400
              (ErrorBody "Invalid phone format" "VALIDATION_ERROR" None))).
  - reflexivity.
  - discriminate.
Defined.

(** A request with a formatted phone. *)
Lemma post_identify_hides_phone_rejection_witness :
  post_identify tick_clock "r1" session1 (Some "a@x.com")
                (Some "+1 (202) 555-0123")
  = (mkResponse 500 (FailureBody "Service temporarily unavailable"
                                 "INTERNAL_ERROR" "r1"),
     session1).
Proof.
  apply post_identify_hides_phone_rejection; reflexivity.
Defined.

(** X23.  On a store with well-formed links, a view returned by
    [identifyContact] never has a null [primaryContactId]: it names the key
    of a row of the store the call leaves. *)
Theorem identify_view_names_a_row (clock : Clock) (db db' : Database)
    (e p : option string) (v : ConsolidatedView) :
  links_wellformed db ->
  identifyContact clock db e p = (inr v, db') ->
  exists c, In c (rows db') /\ primaryContactId v = Some (id c).
Proof.
  intros W H.
  assert (HM : forall c, In c (findContactsByEmailOrPhone db e p) ->
                         In c (rows db)).
  { intros c Hc. apply findContacts_In in Hc. tauto. }
  destruct (identify_cases clock db e p)
    as [[err E]|[(pc & Hpc & _ & E)|[(_ & _ & E)
       |(dbm & T & m & pid & l & _ & _ & HT & _ & _ & _ & _ & Hpid & E)]]];
    rewrite E in H.
  - discriminate H.
  - injection H as <- <-. exists pc. split; [apply HM, Hpc | reflexivity].
  - rewrite createNewPrimaryContact_spec in H. injection H as <- <-.
    eexists. split; [cbn [rows]; apply in_or_app; right; left; reflexivity|].
    reflexivity.
  - injection H as <- <-. cbn [primaryContactId buildResponse].
    assert (Hid : forall c, In c (rows db) ->
               exists c', In c' (rows (snd (attach clock dbm pid
                                              (determineNewInfo l e p) e p)))
                          /\ id c' = id c).
    { intros c Hc. destruct (touched_In _ _ _ _ _ HT Hc) as (c' & Hc' & Tc).
      exists c'. split; [|eapply touched_id; eauto].
      destruct (attach_rows clock dbm pid (determineNewInfo l e p) e p)
        as [ex ->]. apply in_or_app. auto. }
    destruct Hpid as [(pc & Hpc & ->)|(s & Hs & Ss & ->)].
    + destruct (Hid pc (HM pc Hpc)) as (c' & Hc' & Ec).
      exists c'. split; [exact Hc' | congruence].
    + destruct (W s (HM s Hs)) as [_ W2]. destruct (W2 Ss) as (t & Ht & Et).
      destruct (Hid t Ht) as (c' & Hc' & Ec).
      exists c'. split; [exact Hc' | congruence].
Qed.

(** The third call of the session, on a store of two primaries. *)
Lemma identify_view_names_a_row_witness :
  exists c, In c (rows merged3) /\ Some 1 = Some (id c).
Proof.
  apply (identify_view_names_a_row tick_clock session2 merged3
           (Some "a@x.com") (Some "2222222222")
           (mkView (Some 1) ["b@x.com"; "a@x.com"]
                   ["2222222222"; "1111111111"] [2])).
  - intros c [<-|[<-|[]]]; split; [reflexivity | discriminate
                                   | reflexivity | discriminate].
  - reflexivity.
Defined.
